(** * Stable marriage on a directed bipartite graph

    A shallow embedding of [include/boost/graph/stable_marriage.hpp]
    ([stable_marriage] and [is_engaged]) and of the instance built by
    [test/stable_marriage_test.cpp].

    Data model.
    - Vertices are the indices [0 .. num_vertices g - 1] of a [vecS]
      adjacency list; the graph is the list of the out-edge lists.
    - A relation (edge descriptor) is the pair (source, target): graphs are
      read as having at most one relation per ordered pair of persons, which
      is how the test and the example build them.  [edge(u,v,g).second] is
      membership of [v] in the out-edge list of [u].
    - Property maps are functions on their keys, written with [put].
    - Preference values are integers (the test fills its [double] fields
      from [int] tables); [double current_preference = 0] is [0%Z].
    - Dereferencing an end iterator or indexing a property map with the
      descriptor of a missing edge is undefined behaviour: [Undefined].
    - One turn of the [while] loop is one step; the states spoken of are
      the states between turns. *)

From Stdlib Require Import List ZArith Bool Arith Lia.
Import ListNotations.

(** ** Graph *)

Definition vertex := nat.
Definition edge := (vertex * vertex)%type.
Definition Graph := list (list vertex).

Definition source (e : edge) : vertex := fst e.
Definition target (e : edge) : vertex := snd e.

Definition num_vertices (g : Graph) : nat := length g.

Definition adjacent (g : Graph) (u : vertex) : list vertex := nth u g [].

Definition out_edges (u : vertex) (g : Graph) : list edge :=
  map (fun v => (u, v)) (adjacent g u).

Definition vertices (g : Graph) : list vertex := seq 0 (num_vertices g).

Definition edges (g : Graph) : list edge :=
  flat_map (fun u => out_edges u g) (vertices g).

(** [edge(u, v, g).second] *)
Definition edge_exists (u v : vertex) (g : Graph) : bool :=
  existsb (Nat.eqb v) (adjacent g u).

Definition edge_eqb (a b : edge) : bool :=
  Nat.eqb (fst a) (fst b) && Nat.eqb (snd a) (snd b).

(** The graphs the model stands for: every target is a vertex of the graph
    (an adjacency list grows its vertex set on [add_edge]), and no relation
    is repeated in an out-edge list. *)
Definition wf_graph (g : Graph) : Prop :=
  (forall u v, In v (adjacent g u) -> v < num_vertices g)
  /\ (forall u, NoDup (adjacent g u)).

Fixpoint distinct (l : list vertex) : bool :=
  match l with
  | [] => true
  | x :: r => negb (existsb (Nat.eqb x) r) && distinct r
  end.

Definition wf_graphb (g : Graph) : bool :=
  forallb (fun l => forallb (fun v => v <? num_vertices g) l && distinct l) g.

(** ** Property maps *)

Inductive default_color_type : Type :=
  | white_color | gray_color | green_color | red_color | black_color.

Definition is_black (c : default_color_type) : bool :=
  match c with black_color => true | _ => false end.

Definition put_v {A} (m : vertex -> A) (k : vertex) (x : A) : vertex -> A :=
  fun k' => if Nat.eqb k k' then x else m k'.

Definition put {A} (m : edge -> A) (k : edge) (x : A) : edge -> A :=
  fun k' => if edge_eqb k k' then x else m k'.

(** ** Bipartite partitioner *)

Module Bipartite.

(** Neighbours of [v] in the underlying undirected structure. *)
Definition neighbours (g : Graph) (v : vertex) : list vertex :=
  adjacent g v ++ filter (fun u => edge_exists u v g) (vertices g).

Definition side_of (sides : list (option bool)) (v : vertex) : option bool :=
  nth v sides None.

Fixpoint set_side (sides : list (option bool)) (v : vertex) (s : bool)
  : list (option bool) :=
  match sides, v with
  | [], _ => []
  | _ :: r, O => Some s :: r
  | x :: r, S v' => x :: set_side r v' s
  end.

(** Depth-first spreading of sides from the pending list: a person not yet
    labelled takes the side asked for and asks the opposite side of every
    neighbour. *)
Fixpoint spread (fuel : nat) (g : Graph) (work : list (vertex * bool))
  (sides : list (option bool)) : list (option bool) :=
  match fuel with
  | O => sides
  | S fuel' =>
      match work with
      | [] => sides
      | (v, s) :: rest =>
          match side_of sides v with
          | Some _ => spread fuel' g rest sides
          | None =>
              spread fuel' g
                (map (fun u => (u, negb s)) (neighbours g v) ++ rest)
                (set_side sides v s)
          end
      end
  end.

(** Each component is coloured from its own seed, the first person of the
    component in index order; the seed is on side [true]. *)
Fixpoint color_components (fuel : nat) (g : Graph) (seeds : list vertex)
  (sides : list (option bool)) : list (option bool) :=
  match seeds with
  | [] => sides
  | v :: seeds' =>
      color_components fuel g seeds' (spread fuel g [(v, true)] sides)
  end.

(** The fuel covers every pop of the pending list: one per seed, and one
    per neighbour of each person labelled. *)
Definition two_color (g : Graph) : vertex -> bool :=
  let n := num_vertices g in
  let fuel := S (n + length (edges g) + n * n) in
  let sides :=
    color_components fuel g (vertices g) (repeat None (num_vertices g)) in
  fun v => match side_of sides v with Some s => s | None => true end.

(** No relation joins two persons of the same side. *)
Definition consistent (g : Graph) (side : vertex -> bool) : bool :=
  forallb (fun e => negb (Bool.eqb (side (source e)) (side (target e))))
    (edges g).

Definition label (s : bool) : default_color_type :=
  if s then white_color else black_color.

(** Modelled from the spec: [is_bipartite] of [boost/graph/bipartite.hpp],
    which is not among the sources.  Section 4.1: start from an uncoloured
    agent, colour it side A, colour every neighbour (relations taken as
    undirected) the opposite side, each component from its own seed; fail if
    a relation joins two agents of the same side.  Section 7: on failure no
    partial partitioning is exposed, so the caller's storage is returned as
    it was.  Side A is [white_color]: the output quoted at the head of
    [example/stable_marriage_example.cpp] shows the first persons created
    as not black. *)
Definition is_bipartite (g : Graph) (color_map : vertex -> default_color_type)
  : bool * (vertex -> default_color_type) :=
  let side := two_color g in
  if consistent g side
  then (true,
        fun v => if v <? num_vertices g then label (side v) else color_map v)
  else (false, color_map).

End Bipartite.

(** ** The matching loop *)

Record state : Type := mk_state {
  men_iterator : nat;
  free_map : vertex -> bool;
  has_proposed_map : edge -> bool;
  engaged_to_map : edge -> bool
}.

Inductive outcome : Type :=
  | Finished (s : state)
  | Continue (s : state)
  | Undefined.

Inductive result : Type :=
  | Returned (iterations : nat) (s : state)
  | UndefinedBehaviour
  | OutOfFuel.

Section Matching.

Variable g : Graph.
Variable preference_map : edge -> Z.
Variable compare : Z -> Z -> bool.
Variable color_map : vertex -> default_color_type.

(** Lines 128-136: every relation starts not engaged and not proposed;
    line 113: every person starts free. *)
Definition initial_state (engaged0 : edge -> bool) : state :=
  {| men_iterator := 0;
     free_map := fun _ => true;
     has_proposed_map := fun _ => false;
     engaged_to_map :=
       fun e => if existsb (edge_eqb e) (edges g) then false else engaged0 e |}.

(** Lines 148-153: move the iterator to the next black and free person;
    [remaining] is the distance to [men_iterator_end]. *)
Fixpoint next_free_man (remaining : nat) (i : nat) (free : vertex -> bool)
  : nat :=
  match remaining with
  | O => i
  | S r =>
      if negb (is_black (color_map i)) || negb (free i)
      then next_free_man r (S i) free
      else i
  end.

(** Lines 165-191: the scan of the man's out-edges.  The accumulator is
    ([current_prefered_relation] if [man_may_propose], [current_preference]). *)
Definition consider (man : vertex) (has_proposed : edge -> bool)
  (acc : option edge * Z) (rel : edge) : option edge * Z :=
  if negb (has_proposed rel)
     && edge_exists (target rel) man g
     && compare (preference_map rel) (snd acc)
  then (Some rel, preference_map rel)
  else acc.

Definition best_relation (man : vertex) (has_proposed : edge -> bool)
  : option edge * Z :=
  fold_left (consider man has_proposed) (out_edges man g) (None, 0%Z).

(** Lines 218-224: the first out-edge of the woman that is engaged. *)
Definition engaged_relation (woman : vertex) (engaged : edge -> bool)
  : option edge :=
  find engaged (out_edges woman g).

(** Lines 144-262: one turn of the [while] loop. *)
Definition iteration (s : state) : outcome :=
  let n := num_vertices g in
  let man : vertex :=
    next_free_man (n - men_iterator s) (men_iterator s) (free_map s) in
  if n <=? man then
    Finished (mk_state man (free_map s) (has_proposed_map s) (engaged_to_map s))
  else
    match fst (best_relation man (has_proposed_map s)) with
    | None =>
        Continue (mk_state man (put_v (free_map s) man false)
                    (has_proposed_map s) (engaged_to_map s))
    | Some rel =>
        let woman := target rel in
        let proposed := put (has_proposed_map s) rel true in
        if free_map s woman then
          Continue
            (mk_state man
               (put_v (put_v (free_map s) woman false) man false)
               proposed
               (put (put (engaged_to_map s) rel true) (woman, man) true))
        else
          match engaged_relation woman (engaged_to_map s) with
          | None => Undefined
          | Some old =>
              let prev_man := target old in
              if (preference_map (woman, prev_man)
                  <? preference_map (woman, man))%Z
              then
                if edge_exists prev_man woman g then
                  Continue
                    (mk_state man
                       (put_v
                          (put_v (put_v (free_map s) woman false) man false)
                          prev_man true)
                       proposed
                       (put
                          (put
                             (put (put (engaged_to_map s) (man, woman) true)
                                (woman, man) true)
                             (woman, prev_man) false)
                          (prev_man, woman) false))
                else Undefined
              else
                Continue
                  (mk_state man (free_map s) proposed (engaged_to_map s))
          end
    end.

(** The [while (!every_man_is_engaged)] loop, counting its turns. *)
Fixpoint main_loop (fuel : nat) (s : state) : result :=
  match fuel with
  | O => OutOfFuel
  | S fuel' =>
      match iteration s with
      | Finished s' => Returned 1 s'
      | Undefined => UndefinedBehaviour
      | Continue s' =>
          match main_loop fuel' s' with
          | Returned k s'' => Returned (S k) s''
          | r => r
          end
      end
  end.

End Matching.

(** What the caller owns and passes in: the graph (by non-const reference)
    and the three property maps. *)
Record caller_store : Type := mk_store {
  st_graph : Graph;
  st_engaged : edge -> bool;
  st_preference : edge -> Z;
  st_color : vertex -> default_color_type
}.

(** Turns of the main loop that always suffice (see [main_loop_terminates]). *)
Definition iteration_bound (g : Graph) : nat :=
  length (edges g) + num_vertices g + 2.

(** [stable_marriage]: line 101 calls the partitioner and drops its result;
    the rest is the matching loop on the labels now in [color_map].  The
    store after the call comes with the turns and the last working state. *)
Definition stable_marriage (fuel : nat) (c : caller_store)
  (compare : Z -> Z -> bool) : caller_store * result :=
  let g := st_graph c in
  let color_map := snd (Bipartite.is_bipartite g (st_color c)) in
  let r :=
    main_loop g (st_preference c) compare color_map fuel
      (initial_state g (st_engaged c)) in
  (mk_store g
     (match r with
      | Returned _ s => engaged_to_map s
      | _ => st_engaged c
      end)
     (st_preference c) color_map,
   r).

(** [is_engaged], lines 267-277.  [Vertex()] is the value-initialised
    descriptor, [0]. *)
Definition is_engaged (v : vertex) (g : Graph) (engaged_to_map : edge -> bool)
  : vertex * bool :=
  match find engaged_to_map (out_edges v g) with
  | Some rel => (target rel, true)
  | None => (0, true)
  end.

(** ** The instance of the test *)

Module Test.

Definition men_preferences : list (list Z) :=
  [[1; 4; 3]; [2; 5; 2]; [4; 3; 6]]%Z.
Definition women_preferences : list (list Z) :=
  [[2; 2; 3]; [4; 3; 5]; [2; 3; 2]]%Z.

(** Men are vertices 0-2, women 3-5; each man is linked with each woman in
    both directions. *)
Definition g : Graph :=
  [[3; 4; 5]; [3; 4; 5]; [3; 4; 5]; [0; 1; 2]; [0; 1; 2]; [0; 1; 2]].

Definition table (t : list (list Z)) (i j : nat) : Z :=
  nth j (nth i t []) 0%Z.

Definition map_preferences (e : edge) : Z :=
  if fst e <? 3
  then table men_preferences (fst e) (snd e - 3)
  else table women_preferences (fst e - 3) (snd e).

Definition greater_equal (a b : Z) : bool := (b <=? a)%Z.

Definition store : caller_store :=
  mk_store g (fun _ => false) map_preferences (fun _ => white_color).

Definition mutually_engaged : list edge := [(0, 4); (1, 5); (2, 3)].

Definition expected (e : edge) : bool :=
  existsb (fun c => edge_eqb e c || edge_eqb e (snd c, fst c)) mutually_engaged.

(** The other orientation of the labels: the men black. *)
Definition men_black (v : vertex) : default_color_type :=
  if v <? 3 then black_color else white_color.

End Test.

(** ** Comparison policies *)

Module Policy.

(** [std::greater]: the higher score wins. *)
Definition greater (a b : Z) : bool := (b <? a)%Z.

(** [std::less]: the lower score wins. *)
Definition less (a b : Z) : bool := (a <? b)%Z.

End Policy.

(** ** Failing and boundary instances *)

(** Two men (2, 3) and two women (0, 1), every relation present in
    both directions; both men rank woman 1 first and woman 1
    ranks man 3 first. *)
Module Displaced.

Definition g : Graph := [[2; 3]; [2; 3]; [0; 1]; [0; 1]].

Definition preference (e : edge) : Z :=
  match e with
  | (2, 1) => 2%Z | (2, 0) => 1%Z
  | (3, 1) => 2%Z | (3, 0) => 1%Z
  | (1, 3) => 2%Z | (1, 2) => 1%Z
  | (0, 3) => 2%Z | (0, 2) => 1%Z
  | _ => 0%Z
  end.

Definition store : caller_store :=
  mk_store g (fun _ => false) preference (fun _ => white_color).

End Displaced.

(** A policy where the lower score wins.  Men are 2 and 3, women
    0 and 1; relations 2<->0, 3<->0 and 3<->1. *)
Module LowerIsBetter.

Definition g : Graph := [[2; 3]; [3]; [0]; [0; 1]].

Definition preference (e : edge) : Z :=
  match e with
  | (2, 0) => (-1)%Z
  | (3, 0) => (-2)%Z | (3, 1) => (-1)%Z
  | (0, 2) => (-1)%Z | (0, 3) => (-2)%Z
  | (1, 3) => (-1)%Z
  | _ => 0%Z
  end.

Definition store : caller_store :=
  mk_store g (fun _ => false) preference (fun _ => white_color).

End LowerIsBetter.

(** A triangle; the caller's storage holds person 1 black and the others
    white. *)
Module Triangle.

Definition g : Graph := [[1; 2]; [0; 2]; [0; 1]].

Definition preference (e : edge) : Z := Z.of_nat (S (snd e)).

Definition labels (v : vertex) : default_color_type :=
  if v =? 1 then black_color else white_color.

Definition store : caller_store :=
  mk_store g (fun _ => false) preference labels.

End Triangle.

(** One man (2) with the same score for both women (0, 1). *)
Module Tie.

Definition g : Graph := [[2]; [2]; [0; 1]].

Definition preference (e : edge) : Z := 1%Z.

Definition store : caller_store :=
  mk_store g (fun _ => false) preference (fun _ => white_color).

End Tie.

(** ** Notions the properties are stated with *)

(** [a] is strictly better than [b] under the policy. *)
Definition strictly_better (compare : Z -> Z -> bool) (a b : Z) : Prop :=
  compare a b = true /\ compare b a = false.

Definition strictly_betterb (compare : Z -> Z -> bool) (a b : Z) : bool :=
  compare a b && negb (compare b a).

Definition transitive (compare : Z -> Z -> bool) : Prop :=
  forall a b c, compare a b = true -> compare b c = true -> compare a c = true.

(** The relations a man may still propose on: not proposed yet, and the
    woman has a relation back to him. *)
Definition viable (g : Graph) (man : vertex) (has_proposed : edge -> bool)
  (rel : edge) : Prop :=
  has_proposed rel = false /\ edge_exists (target rel) man g = true.

(** The choice as the specification words it: the first relation in
    iteration order that no viable relation strictly beats. *)
Definition first_best (g : Graph) (preference_map : edge -> Z)
  (compare : Z -> Z -> bool) (man : vertex) (has_proposed : edge -> bool)
  : option edge :=
  let cands :=
    filter (fun e => negb (has_proposed e) && edge_exists (target e) man g)
      (out_edges man g) in
  match cands with
  | [] => None
  | e :: r =>
      Some (fold_left
              (fun best x =>
                 if strictly_betterb compare (preference_map x)
                      (preference_map best)
                 then x else best) r e)
  end.

(** Engaged pair (p, r), another woman r' with relations to and from p,
    p prefers r' to r, and r' prefers p to the partner q it holds. *)
Definition blocking (g : Graph) (preference_map : edge -> Z)
  (man_prefers woman_prefers : Z -> Z -> Prop)
  (engaged : edge -> bool) (p r r' : vertex) : Prop :=
  In r (adjacent g p) /\ engaged (p, r) = true
  /\ r' <> r /\ In r' (adjacent g p) /\ In p (adjacent g r')
  /\ man_prefers (preference_map (p, r')) (preference_map (p, r))
  /\ exists q, In q (adjacent g r') /\ engaged (r', q) = true
       /\ woman_prefers (preference_map (r', p)) (preference_map (r', q)).

(** No engaged man is part of a blocking configuration. *)
Definition stable (g : Graph) (preference_map : edge -> Z)
  (man_prefers woman_prefers : Z -> Z -> Prop)
  (color_map : vertex -> default_color_type) (engaged : edge -> bool) : Prop :=
  forall p r r', is_black (color_map p) = true ->
    ~ blocking g preference_map man_prefers woman_prefers engaged
        p r r'.

(** Every black person has relations to and from every person that is not
    black. *)
Definition complete_bipartite (g : Graph)
  (color_map : vertex -> default_color_type) : bool :=
  forallb
    (fun p =>
       forallb
         (fun r =>
            implb (is_black (color_map p) && negb (is_black (color_map r)))
              (edge_exists p r g && edge_exists r p g))
         (vertices g))
    (vertices g).

(** The person holds an engaged relation. *)
Definition engaged_person (g : Graph) (engaged : edge -> bool) (v : vertex)
  : bool :=
  existsb engaged (out_edges v g).

(** The state after [k] turns that did not end the loop. *)
Fixpoint after_turns (g : Graph) (preference_map : edge -> Z)
  (compare : Z -> Z -> bool) (color_map : vertex -> default_color_type)
  (k : nat) (s : state) : option state :=
  match k with
  | O => Some s
  | S k' =>
      match iteration g preference_map compare color_map s with
      | Continue s' => after_turns g preference_map compare color_map k' s'
      | _ => None
      end
  end.

(** ** Notions about the loop *)

(** Engagements come in pairs: an engaged relation has its reverse in the
    graph, engaged too. *)
Definition symmetric (g : Graph) (engaged : edge -> bool) : Prop :=
  forall a b, In b (adjacent g a) -> engaged (a, b) = true ->
    In a (adjacent g b) /\ engaged (b, a) = true.

(** A labelling is proper when the two ends of every relation lie on
    opposite sides of the black / not black split. *)
Definition proper (g : Graph) (color_map : vertex -> default_color_type)
  : Prop :=
  forall a b, In b (adjacent g a) ->
    is_black (color_map b) = negb (is_black (color_map a)).

Section LoopNotions.

Variable g : Graph.
Variable preference_map : edge -> Z.
Variable compare : Z -> Z -> bool.
Variable color_map : vertex -> default_color_type.

Definition current_man (s : state) : vertex :=
  next_free_man color_map (num_vertices g - men_iterator s) (men_iterator s)
    (free_map s).

Definition choice (s : state) : option edge :=
  fst (best_relation g preference_map compare (current_man s)
         (has_proposed_map s)).

Inductive turn (s : state) : state -> Prop :=
  | turn_exhausted :
      current_man s < num_vertices g ->
      choice s = None ->
      turn s (mk_state (current_man s)
                (put_v (free_map s) (current_man s) false)
                (has_proposed_map s) (engaged_to_map s))
  | turn_engage (m w : vertex) :
      m = current_man s -> m < num_vertices g ->
      choice s = Some (m, w) ->
      free_map s w = true ->
      turn s (mk_state m
                (put_v (put_v (free_map s) w false) m false)
                (put (has_proposed_map s) (m, w) true)
                (put (put (engaged_to_map s) (m, w) true) (w, m) true))
  | turn_displace (m w p : vertex) :
      m = current_man s -> m < num_vertices g ->
      choice s = Some (m, w) ->
      free_map s w = false ->
      engaged_relation g w (engaged_to_map s) = Some (w, p) ->
      (preference_map (w, p) < preference_map (w, m))%Z ->
      edge_exists p w g = true ->
      turn s (mk_state m
                (put_v (put_v (put_v (free_map s) w false) m false) p true)
                (put (has_proposed_map s) (m, w) true)
                (put
                   (put
                      (put (put (engaged_to_map s) (m, w) true) (w, m) true)
                      (w, p) false)
                   (p, w) false))
  | turn_reject (m w p : vertex) :
      m = current_man s -> m < num_vertices g ->
      choice s = Some (m, w) ->
      free_map s w = false ->
      engaged_relation g w (engaged_to_map s) = Some (w, p) ->
      (preference_map (w, m) <= preference_map (w, p))%Z ->
      turn s (mk_state m (free_map s)
                (put (has_proposed_map s) (m, w) true) (engaged_to_map s)).

(** States the loop goes through, starting from [s0]. *)
Inductive reachable (s0 : state) : state -> Prop :=
  | reachable_start : reachable s0 s0
  | reachable_turn s s' : reachable s0 s -> turn s s' -> reachable s0 s'.

Definition unproposed (s : state) : nat :=
  length (filter (fun e => negb (has_proposed_map s e)) (edges g)).

(** 1 when the iterator already rests on a black and free person. *)
Definition waiting (s : state) : nat :=
  if (men_iterator s <? num_vertices g)
     && is_black (color_map (men_iterator s))
     && free_map s (men_iterator s)
  then 1 else 0.

Definition measure (s : state) : nat :=
  unproposed s + (num_vertices g - men_iterator s) + waiting s.

(** A woman who is not free holds an engaged relation. *)
Definition held (s : state) : Prop :=
  forall w, is_black (color_map w) = false -> free_map s w = false ->
    exists u, In u (adjacent g w) /\ engaged_to_map s (w, u) = true.

(** A man taken out of the game: not free and not engaged. *)
Definition idle (s : state) (m : vertex) : Prop :=
  is_black (color_map m) = true /\ free_map s m = false
  /\ forall u, In u (adjacent g m) -> engaged_to_map s (m, u) = false.

(** Nobody holds two engaged relations. *)
Definition monogamous (s : state) : Prop :=
  forall a b b', In b (adjacent g a) -> In b' (adjacent g a) ->
    engaged_to_map s (a, b) = true -> engaged_to_map s (a, b') = true ->
    b = b'.

(** Whoever holds an engaged relation is not free. *)
Definition taken (s : state) : Prop :=
  forall a b, In b (adjacent g a) -> engaged_to_map s (a, b) = true ->
    free_map s a = false.

(** All the invariants together, on every state the loop goes through. *)
Record sound (s : state) : Prop := {
  sound_symmetric : symmetric g (engaged_to_map s);
  sound_held : held s;
  sound_monogamous : monogamous s;
  sound_taken : taken s
}.

(** A woman a man has proposed to holds a partner she ranks at least as
    high, by score. *)
Definition answered (s : state) : Prop :=
  forall m w, is_black (color_map m) = true ->
    In w (adjacent g m) -> In m (adjacent g w) ->
    has_proposed_map s (m, w) = true ->
    exists q, In q (adjacent g w) /\ engaged_to_map s (w, q) = true
      /\ (preference_map (w, m) <= preference_map (w, q))%Z.

(** An engaged man has no viable relation left that is strictly better,
    under the policy, than the one he is engaged on. *)
Definition content (s : state) : Prop :=
  forall m w w', is_black (color_map m) = true ->
    In w (adjacent g m) -> engaged_to_map s (m, w) = true ->
    In w' (adjacent g m) -> In m (adjacent g w') ->
    has_proposed_map s (m, w') = false ->
    ~ strictly_better compare (preference_map (m, w'))
        (preference_map (m, w)).

End LoopNotions.

(** ** Notions about the partitioner and the call *)

(** Two persons are linked when a relation joins them, in either
    direction. *)
Definition linked (g : Graph) (u v : vertex) : Prop :=
  In v (adjacent g u) \/ In u (adjacent g v).

(** [walk g u k v]: [k] links lead from [u] to [v]. *)
Inductive walk (g : Graph) : vertex -> nat -> vertex -> Prop :=
  | walk_stop v : walk g v 0 v
  | walk_link u v w k : linked g u v -> walk g v k w -> walk g u (S k) w.

(** A closed walk of odd length, which is what containing an odd cycle
    amounts to. *)
Definition has_odd_cycle (g : Graph) : Prop :=
  exists v k, walk g v (S (2 * k)) v.

(** The persons can be split in two sides with every relation across. *)
Definition bipartite (g : Graph) : Prop :=
  exists side : vertex -> bool,
    forall u v, In v (adjacent g u) -> side v = negb (side u).

Definition labelled (sides : list (option bool)) (v : vertex) : Prop :=
  Bipartite.side_of sides v <> None.

(** Labelled persons are closed under links, and linked labelled persons
    are on opposite sides. *)
Definition closed (g : Graph) (sides : list (option bool)) : Prop :=
  forall u v, linked g u v -> labelled sides u -> labelled sides v.

Definition opposite (g : Graph) (sides : list (option bool)) : Prop :=
  forall u v a a', linked g u v ->
    Bipartite.side_of sides u = Some a ->
    Bipartite.side_of sides v = Some a' -> a' = negb a.

(** What the persons not yet labelled may still add to the pending list,
    counting one for the person itself; [i] is the index of the head. *)
Fixpoint pending (g : Graph) (i : nat) (sides : list (option bool)) : nat :=
  match sides with
  | [] => 0
  | x :: r =>
      match x with
      | None => S (length (Bipartite.neighbours g i))
      | Some _ => 0
      end + pending g (S i) r
  end.

(** The state of the spreading inside one component: [old] holds the labels
    written before the component was entered and [flip] relates [side] to
    the labels of this component.  Labels of [old] are kept, new labels and
    pending requests follow [side] up to [flip], and every neighbour of a
    newly labelled person is labelled or pending. *)
Definition exploring (g : Graph) (side : vertex -> bool)
  (old : list (option bool)) (flip : bool) (work : list (vertex * bool))
  (sides : list (option bool)) : Prop :=
  length sides = num_vertices g
  /\ (forall v, labelled old v ->
        Bipartite.side_of sides v = Bipartite.side_of old v)
  /\ (forall v s, Bipartite.side_of sides v = Some s -> ~ labelled old v ->
        s = xorb (side v) flip)
  /\ (forall v s, In (v, s) work ->
        v < num_vertices g /\ ~ labelled old v /\ s = xorb (side v) flip)
  /\ (forall u v, linked g u v -> labelled sides u -> ~ labelled old u ->
        labelled sides v \/ exists s, In (v, s) work).

(** The labels between two components: whole components, properly split. *)
Definition coloured (g : Graph) (sides : list (option bool)) : Prop :=
  length sides = num_vertices g /\ closed g sides /\ opposite g sides.

Definition labels_of (c : caller_store) : vertex -> default_color_type :=
  snd (Bipartite.is_bipartite (st_graph c) (st_color c)).

Definition run (fuel : nat) (c : caller_store) (compare : Z -> Z -> bool)
  : result :=
  main_loop (st_graph c) (st_preference c) compare (labels_of c) fuel
    (initial_state (st_graph c) (st_engaged c)).

(** A result checked against the turns taken and the engaged flag expected
    on every relation. *)
Definition engaged_as (g : Graph) (expected : edge -> bool) (k : nat)
  (r : result) : bool :=
  match r with
  | Returned k' s =>
      (k' =? k)
      && forallb (fun e => Bool.eqb (engaged_to_map s e) (expected e)) (edges g)
  | _ => false
  end.

(** A result checked by a boolean test on the turns and the last state. *)
Definition returned_with (f : nat -> state -> bool) (r : result) : bool :=
  match r with Returned k s => f k s | _ => false end.

(** ** Notions about proposals *)

Section ProposalNotions.

Variable g : Graph.
Variable preference_map : edge -> Z.
Variable compare : Z -> Z -> bool.
Variable color_map : vertex -> default_color_type.

(** A relation proposed on leaves a black person and has its reverse in the
    graph (the note of lines 122-123). *)
Definition wooed (s : state) : Prop :=
  forall m w, has_proposed_map s (m, w) = true ->
    is_black (color_map m) = true
    /\ In w (adjacent g m) /\ In m (adjacent g w).

(** The score of a relation proposed on passes the policy against 0, the
    value [current_preference] starts from at line 165. *)
Definition beats_zero (s : state) : Prop :=
  forall e, has_proposed_map s e = true ->
    compare (preference_map e) 0%Z = true.

(** What a man has proposed on is never strictly worse, under the policy,
    than a viable relation he has not proposed on yet. *)
Definition descending (s : state) : Prop :=
  forall m w w', has_proposed_map s (m, w) = true ->
    In w' (adjacent g m) -> In m (adjacent g w') ->
    has_proposed_map s (m, w') = false ->
    ~ strictly_better compare (preference_map (m, w'))
        (preference_map (m, w)).

(** An engaged relation has been proposed on, in one of its directions. *)
Definition courted (s : state) : Prop :=
  forall a b, In b (adjacent g a) -> engaged_to_map s (a, b) = true ->
    has_proposed_map s (a, b) = true \/ has_proposed_map s (b, a) = true.

(** A man taken out of the game has no viable relation left whose score
    passes the policy against 0. *)
Definition spent (s : state) (m : vertex) : Prop :=
  idle g color_map s m
  /\ forall w, In w (adjacent g m) -> In m (adjacent g w) ->
       has_proposed_map s (m, w) = false ->
       compare (preference_map (m, w)) 0%Z = false.

(** Every man who is not free is engaged or has nothing left to propose
    on. *)
Definition settled (s : state) : Prop :=
  forall m, is_black (color_map m) = true -> free_map s m = false ->
    (exists w, In w (adjacent g m) /\ engaged_to_map s (m, w) = true)
    \/ spent s m.

End ProposalNotions.

(** ** Two runs side by side *)

(** Two states that agree wherever the loop reads them: the engaged flags
    are only read on relations of the graph. *)
Definition same (g : Graph) (s t : state) : Prop :=
  men_iterator s = men_iterator t
  /\ (forall v, free_map s v = free_map t v)
  /\ (forall e, has_proposed_map s e = has_proposed_map t e)
  /\ (forall a b, In b (adjacent g a) ->
        engaged_to_map s (a, b) = engaged_to_map t (a, b)).

Definition same_outcome (g : Graph) (o o' : outcome) : Prop :=
  match o, o' with
  | Finished s, Finished s' => same g s s'
  | Continue s, Continue s' => same g s s'
  | Undefined, Undefined => True
  | _, _ => False
  end.

Definition agree (g : Graph) (r r' : result) : Prop :=
  match r, r' with
  | Returned k s, Returned k' s' => k = k' /\ same g s s'
  | UndefinedBehaviour, UndefinedBehaviour => True
  | OutOfFuel, OutOfFuel => True
  | _, _ => False
  end.

(** The store with other content in the engaged flags. *)
Definition with_engaged (c : caller_store) (engaged0 : edge -> bool)
  : caller_store :=
  mk_store (st_graph c) engaged0 (st_preference c) (st_color c).

(** ** The checks of the test *)

Module TestChecks.

(** Lines 113-124 of the test: the couples are tried in turn, up to the
    first that the relation [it] joins in either direction.  The result is
    the local [engaged] and the truth of the [BOOST_CHECK] evaluated, if
    any. *)
Fixpoint check_couples (map_engaged : edge -> bool) (it : edge)
  (couples : list edge) : bool * bool :=
  match couples with
  | [] => (false, true)
  | c :: rest =>
      if edge_eqb it (fst c, snd c)
      then (true, Bool.eqb true (map_engaged (fst c, snd c)))
      else if edge_eqb it (snd c, fst c)
      then (true, Bool.eqb true (map_engaged (snd c, fst c)))
      else check_couples map_engaged it rest
  end.

(** Lines 112-128: the checks made for one relation. *)
Definition check_relation (map_engaged : edge -> bool) (couples : list edge)
  (it : edge) : bool :=
  let (engaged, passed) := check_couples map_engaged it couples in
  if engaged then passed else passed && Bool.eqb false (map_engaged it).

(** Lines 108-129: every check of the loop over the relations holds. *)
Definition checks_pass (g : Graph) (couples : list edge)
  (map_engaged : edge -> bool) : bool :=
  forallb (check_relation map_engaged couples) (edges g).

(** The relation joins one of the couples, in either direction. *)
Definition in_couples (couples : list edge) (e : edge) : bool :=
  existsb (fun c => edge_eqb e c || edge_eqb e (snd c, fst c)) couples.

End TestChecks.

(** ** Notions about displaced men *)

(** Whoever has proposed is at the iterator or behind it. *)
Definition in_order (s : state) : Prop :=
  forall m w, has_proposed_map s (m, w) = true -> m <= men_iterator s.

(** A man behind the iterator who is free and holds no engaged relation. *)
Definition abandoned (g : Graph) (s : state) (v : vertex) : Prop :=
  v < men_iterator s /\ free_map s v = true
  /\ forall w, In w (adjacent g v) -> engaged_to_map s (v, w) = false.

(** ** Basic facts on graphs and property maps *)

Lemma edge_eqb_eq (a b : edge) : edge_eqb a b = true <-> a = b.
Proof.
  destruct a as [a1 a2], b as [b1 b2]; unfold edge_eqb; simpl.
  rewrite andb_true_iff, !Nat.eqb_eq. split.
  - intros [-> ->]; reflexivity.
  - intros H; inversion H; auto.
Qed.

Lemma edge_eqb_refl (a : edge) : edge_eqb a a = true.
Proof. apply edge_eqb_eq; reflexivity. Qed.

Lemma edge_eqb_neq (a b : edge) : a <> b -> edge_eqb a b = false.
Proof.
  intros H. destruct (edge_eqb a b) eqn:E; [|reflexivity].
  apply edge_eqb_eq in E. contradiction.
Qed.

Lemma edge_eqb_false (a b : edge) : edge_eqb a b = false -> a <> b.
Proof.
  intros H E. apply edge_eqb_eq in E. rewrite E in H. discriminate.
Qed.

Lemma put_same {A} (m : edge -> A) k x : put m k x k = x.
Proof. unfold put. now rewrite edge_eqb_refl. Qed.

Lemma put_v_same {A} (m : vertex -> A) k x : put_v m k x k = x.
Proof. unfold put_v. now rewrite Nat.eqb_refl. Qed.

Lemma edge_exists_In u v g : edge_exists u v g = true <-> In v (adjacent g u).
Proof.
  unfold edge_exists. rewrite existsb_exists. split.
  - intros [x [Hx E]]. apply Nat.eqb_eq in E. now subst.
  - intros H. exists v. split; [assumption|apply Nat.eqb_refl].
Qed.

Lemma adjacent_in_range g u v : In v (adjacent g u) -> u < num_vertices g.
Proof.
  unfold adjacent, num_vertices. intros H.
  destruct (lt_dec u (length g)) as [L|L]; [assumption|].
  rewrite nth_overflow in H by lia. destruct H.
Qed.

Lemma in_out_edges u g e :
  In e (out_edges u g) <-> fst e = u /\ In (snd e) (adjacent g u).
Proof.
  unfold out_edges. rewrite in_map_iff. split.
  - intros [v [<- Hv]]. simpl. auto.
  - intros [<- H]. exists (snd e). split; [now destruct e|assumption].
Qed.

Lemma in_edges g e : In e (edges g) <-> In (snd e) (adjacent g (fst e)).
Proof.
  unfold edges. rewrite in_flat_map. split.
  - intros [u [_ H]]. apply in_out_edges in H. destruct H as [<- H]. exact H.
  - intros H. exists (fst e). split.
    + apply in_seq. split; [lia|]. simpl. eapply adjacent_in_range; eauto.
    + apply in_out_edges. auto.
Qed.

Lemma distinct_NoDup l : distinct l = true -> NoDup l.
Proof.
  induction l as [|x l IH]; simpl; intros H; constructor.
  - apply andb_true_iff in H. destruct H as [H _].
    apply negb_true_iff in H. intros Hin.
    assert (existsb (Nat.eqb x) l = true) as E.
    { apply existsb_exists. exists x. split; [assumption|apply Nat.eqb_refl]. }
    congruence.
  - apply IH. apply andb_true_iff in H. apply H.
Qed.

Lemma wf_graphb_sound g : wf_graphb g = true -> wf_graph g.
Proof.
  unfold wf_graphb, wf_graph, adjacent. intros H.
  rewrite forallb_forall in H. split.
  - intros u v Hv. destruct (lt_dec u (length g)) as [L|L].
    + specialize (H (nth u g []) (nth_In g [] L)).
      apply andb_true_iff in H. destruct H as [H _].
      rewrite forallb_forall in H. apply Nat.ltb_lt. auto.
    + rewrite nth_overflow in Hv by lia. destruct Hv.
  - intros u. destruct (lt_dec u (length g)) as [L|L].
    + specialize (H (nth u g []) (nth_In g [] L)).
      apply andb_true_iff in H. destruct H as [_ H].
      now apply distinct_NoDup.
    + rewrite nth_overflow by lia. constructor.
Qed.

(** ** The scan for the next free man *)

Section NextFreeMan.

Variable color_map : vertex -> default_color_type.

Lemma next_free_man_bounds r i free :
  i <= next_free_man color_map r i free <= i + r.
Proof.
  revert i. induction r as [|r IH]; intros i; simpl; [lia|].
  destruct (negb (is_black (color_map i)) || negb (free i)); [|lia].
  specialize (IH (S i)). lia.
Qed.

Lemma next_free_man_found r i free :
  next_free_man color_map r i free < i + r ->
  is_black (color_map (next_free_man color_map r i free)) = true
  /\ free (next_free_man color_map r i free) = true.
Proof.
  revert i. induction r as [|r IH]; intros i; simpl; [lia|].
  destruct (negb (is_black (color_map i)) || negb (free i)) eqn:E.
  - intros H. apply IH. lia.
  - intros _. apply orb_false_iff in E. destruct E as [E1 E2].
    apply negb_false_iff in E1, E2. auto.
Qed.

End NextFreeMan.

(** ** The choice of the relation to propose on *)

Section Scan.

Variable g : Graph.
Variable preference_map : edge -> Z.
Variable compare : Z -> Z -> bool.
Variable man : vertex.
Variable has_proposed : edge -> bool.

Let step := consider g preference_map compare man has_proposed.
Let ok := viable g man has_proposed.

Lemma consider_cases acc rel :
  (ok rel /\ compare (preference_map rel) (snd acc) = true
   /\ step acc rel = (Some rel, preference_map rel))
  \/ ((ok rel -> compare (preference_map rel) (snd acc) = false)
      /\ step acc rel = acc).
Proof.
  unfold step, ok, consider, viable.
  destruct (has_proposed rel); simpl.
  - right. split; [intros [H _]; discriminate|reflexivity].
  - destruct (edge_exists (target rel) man g); simpl.
    + destruct (compare (preference_map rel) (snd acc)) eqn:C.
      * left. auto.
      * right. auto.
    + right. split; [intros [_ H]; discriminate|reflexivity].
Qed.

(** Where the chosen relation sits in the list that was scanned. *)
Lemma scan_chosen l : forall acc rel c,
  fold_left step l acc = (Some rel, c) ->
  (acc = (Some rel, c)
   /\ forall e, In e l -> ok e -> compare (preference_map e) c = false)
  \/ (exists l1 l2,
        l = l1 ++ rel :: l2 /\ ok rel /\ c = preference_map rel
        /\ compare (preference_map rel) (snd (fold_left step l1 acc)) = true
        /\ forall e, In e l2 -> ok e ->
             compare (preference_map e) (preference_map rel) = false).
Proof.
  induction l as [|e l IH]; intros acc rel c H; simpl in H.
  - left. split; [assumption|]. intros e [].
  - destruct (IH _ _ _ H) as [[Hacc Hl] | [l1 [l2 [El [Hok [Ec [Hc Hl2]]]]]]].
    + destruct (consider_cases acc e) as [[He [Hc Hs]] | [Hn Hs]];
        rewrite Hs in Hacc.
      * inversion Hacc; subst. right. exists [], l. simpl. auto.
      * subst acc. left. split; [reflexivity|].
        intros e' [<- | Hin] He'; auto.
    + right. exists (e :: l1), l2. subst l. simpl. auto.
Qed.

Hypothesis compare_trans : transitive compare.

Lemma scan_dominates l : forall acc x,
  ~ strictly_better compare x (snd acc) ->
  ~ strictly_better compare x (snd (fold_left step l acc)).
Proof.
  induction l as [|e l IH]; intros acc x H; simpl; [assumption|].
  apply IH.
  destruct (consider_cases acc e) as [[_ [Hc Hs]] | [_ Hs]]; rewrite Hs;
    [|assumption].
  simpl. intros [B1 B2]. apply H. split.
  - eapply compare_trans; eauto.
  - destruct (compare (snd acc) x) eqn:E; [|reflexivity].
    rewrite (compare_trans _ _ _ Hc E) in B2. discriminate.
Qed.

Lemma scan_seen l : forall acc e,
  In e l -> ok e ->
  ~ strictly_better compare (preference_map e) (snd (fold_left step l acc)).
Proof.
  induction l as [|e0 l IH]; intros acc e Hin He; [destruct Hin|].
  simpl. destruct Hin as [-> | Hin]; [|now apply IH].
  apply scan_dominates.
  destruct (consider_cases acc e) as [[_ [Hc Hs]] | [Hn Hs]]; rewrite Hs.
  - simpl. intros [B1 B2]. congruence.
  - intros [B1 _]. rewrite (Hn He) in B1. discriminate.
Qed.

(** The relation chosen by the scan of lines 165-191. *)
Lemma best_relation_spec rel :
  fst (best_relation g preference_map compare man has_proposed) = Some rel ->
  exists l1 l2,
    out_edges man g = l1 ++ rel :: l2
    /\ ok rel
    /\ snd (best_relation g preference_map compare man has_proposed)
       = preference_map rel
    /\ (forall e, In e (out_edges man g) -> ok e ->
          ~ strictly_better compare (preference_map e) (preference_map rel))
    /\ ((forall x, compare x x = false) ->
        forall e, In e l1 -> ok e -> preference_map e <> preference_map rel)
    /\ ((forall x, compare x x = true) ->
        forall e, In e l2 -> ok e -> preference_map e <> preference_map rel).
Proof.
  unfold best_relation. fold step. intros H.
  destruct (fold_left step (out_edges man g) (None, 0%Z)) as [b c] eqn:F.
  simpl in H. subst b.
  destruct (scan_chosen _ _ _ _ F)
    as [[Hacc _] | [l1 [l2 [El [Hok [Ec [Hc Hl2]]]]]]];
    [discriminate|].
  exists l1, l2. repeat split; try assumption; try apply Hok.
  - intros e Hin He. pose proof (scan_seen _ (None, 0%Z) _ Hin He) as S.
    rewrite F in S. simpl in S. now rewrite Ec in S.
  - intros Irr e Hin He Eq.
    apply (scan_seen _ (None, 0%Z) _ Hin He). split.
    + now rewrite Eq.
    + destruct (compare _ (preference_map e)) eqn:E; [|reflexivity].
      rewrite <- Eq in Hc.
      pose proof (compare_trans _ _ _ Hc E) as T. rewrite Irr in T.
      discriminate.
  - intros Refl e Hin He Eq. specialize (Hl2 e Hin He).
    rewrite Eq, Refl in Hl2. discriminate.
Qed.

End Scan.

Lemma best_relation_in g preference_map compare man has_proposed rel :
  fst (best_relation g preference_map compare man has_proposed) = Some rel ->
  In rel (out_edges man g) /\ viable g man has_proposed rel.
Proof.
  unfold best_relation. intros H.
  destruct (fold_left _ _ _) as [b c] eqn:F. simpl in H. subst b.
  destruct (scan_chosen _ _ _ _ _ _ _ _ _ F)
    as [[Hacc _] | [l1 [l2 [El [Hok _]]]]]; [discriminate|].
  split; [|assumption]. rewrite El. apply in_or_app. right. now left.
Qed.

(** ** The turns of the main loop as a relation *)

Section Turns.

Variable g : Graph.
Variable preference_map : edge -> Z.
Variable compare : Z -> Z -> bool.
Variable color_map : vertex -> default_color_type.

Local Abbreviation current_man := (current_man g color_map).
Local Abbreviation choice := (choice g preference_map compare color_map).
Local Abbreviation turn := (turn g preference_map compare color_map).
Local Abbreviation reachable := (reachable g preference_map compare color_map).

Lemma choice_eq (s : state) :
  choice s
  = fst (best_relation g preference_map compare (current_man s)
           (has_proposed_map s)).
Proof. reflexivity. Qed.

Lemma engaged_relation_found w engaged old :
  engaged_relation g w engaged = Some old ->
  old = (w, target old) /\ In (target old) (adjacent g w)
  /\ engaged old = true.
Proof.
  unfold engaged_relation. intros H. apply find_some in H.
  destruct H as [Hin He]. apply in_out_edges in Hin.
  destruct old as [a b]. simpl in *. destruct Hin as [-> Hin]. auto.
Qed.

Lemma engaged_relation_none w engaged :
  engaged_relation g w engaged = None ->
  forall u, In u (adjacent g w) -> engaged (w, u) = false.
Proof.
  unfold engaged_relation. intros H u Hu.
  apply (find_none _ _ H (w, u)). apply in_out_edges. auto.
Qed.

Lemma choice_found s rel :
  choice s = Some rel ->
  rel = (current_man s, target rel)
  /\ In (target rel) (adjacent g (current_man s))
  /\ has_proposed_map s rel = false
  /\ In (current_man s) (adjacent g (target rel)).
Proof.
  unfold choice. intros H. apply best_relation_in in H.
  destruct H as [Hin [Hp Hr]]. apply in_out_edges in Hin.
  destruct rel as [a b]. simpl in *. destruct Hin as [-> Hin].
  apply edge_exists_In in Hr. auto.
Qed.

Lemma iteration_turn s s' :
  iteration g preference_map compare color_map s = Continue s' -> turn s s'.
Proof.
  unfold iteration. fold (current_man s).
  destruct (num_vertices g <=? current_man s) eqn:L; [discriminate|].
  apply Nat.leb_gt in L. fold (choice s).
  destruct (choice s) as [rel|] eqn:C.
  - destruct (choice_found _ _ C) as [Er _].
    destruct rel as [m w]. simpl in Er. inversion Er as [Em]. simpl.
    rewrite <- Em.
    destruct (free_map s w) eqn:Fw.
    + intros H. inversion H; subst s'. apply turn_engage; auto; lia.
    + destruct (engaged_relation g w (engaged_to_map s)) as [old|] eqn:Eo;
        [|discriminate].
      destruct (engaged_relation_found _ _ _ Eo) as [Eold _].
      destruct old as [w' p]. simpl in Eold. inversion Eold; subst w'. simpl.
      destruct (preference_map (w, p) <? preference_map (w, m))%Z eqn:Cmp.
      * destruct (edge_exists p w g) eqn:Ex; [|discriminate].
        intros H. inversion H; subst s'.
        apply turn_displace; auto; try lia.
      * intros H. inversion H; subst s'.
        apply turn_reject with (p := p); auto; try lia.
  - intros H. inversion H; subst s'. now apply turn_exhausted.
Qed.

Lemma iteration_finished s s' :
  iteration g preference_map compare color_map s = Finished s' ->
  num_vertices g <= current_man s
  /\ s' = mk_state (current_man s) (free_map s) (has_proposed_map s)
            (engaged_to_map s).
Proof.
  unfold iteration. fold (current_man s).
  destruct (num_vertices g <=? current_man s) eqn:L.
  - intros H. inversion H. apply Nat.leb_le in L. auto.
  - fold (choice s). destruct (choice s) as [rel|]; [|discriminate].
    destruct (free_map s (target rel)); [discriminate|].
    destruct (engaged_relation g (target rel) (engaged_to_map s));
      [|discriminate].
    destruct (_ <? _)%Z; [|discriminate].
    destruct (edge_exists _ _ g); discriminate.
Qed.

(** The man whose turn it is: black, free, and not before the iterator. *)
Lemma current_man_spec s :
  men_iterator s <= current_man s
  /\ (current_man s < num_vertices g ->
      is_black (color_map (current_man s)) = true
      /\ free_map s (current_man s) = true).
Proof.
  unfold current_man. split.
  - apply next_free_man_bounds.
  - intros L. apply next_free_man_found.
    pose proof (next_free_man_bounds color_map
                  (num_vertices g - men_iterator s) (men_iterator s)
                  (free_map s)). lia.
Qed.

Lemma reachable_trans s0 s1 s2 :
  reachable s0 s1 -> reachable s1 s2 -> reachable s0 s2.
Proof.
  intros H1 H2. induction H2; [assumption|].
  eapply reachable_turn; eauto.
Qed.

Lemma main_loop_reaches fuel : forall s k s'',
  main_loop g preference_map compare color_map fuel s = Returned k s'' ->
  exists s', reachable s s'
    /\ iteration g preference_map compare color_map s' = Finished s''.
Proof.
  induction fuel as [|fuel IH]; intros s k s'' H; simpl in H; [discriminate|].
  destruct (iteration g preference_map compare color_map s) as [f|c|] eqn:It.
  - inversion H; subst. exists s. split; [constructor|assumption].
  - destruct (main_loop g preference_map compare color_map fuel c)
      as [k' t| |] eqn:M; try discriminate.
    inversion H; subst. destruct (IH _ _ _ M) as [s' [R F]].
    exists s'. split; [|assumption].
    eapply reachable_trans; [|exact R].
    eapply reachable_turn; [constructor|]. now apply iteration_turn.
  - discriminate.
Qed.

End Turns.

(** ** Invariants of the main loop *)

Ltac edge_cases :=
  repeat match goal with
  | |- context [edge_eqb ?x ?y] => destruct (edge_eqb x y) eqn:?
  | H : context [if edge_eqb ?x ?y then _ else _] |- _ =>
      destruct (edge_eqb x y) eqn:?
  end.

Ltac edge_facts :=
  repeat match goal with
  | H : edge_eqb _ _ = true |- _ =>
      apply edge_eqb_eq in H; inversion H; clear H; subst
  end;
  try match goal with
  | H : edge_eqb ?x ?x = false |- _ =>
      rewrite edge_eqb_refl in H; discriminate
  end;
  repeat match goal with
  | H : edge_eqb _ _ = false |- _ => apply edge_eqb_false in H
  end.

Ltac vertex_cases :=
  repeat match goal with
  | |- context [Nat.eqb ?x ?y] => destruct (Nat.eqb_spec x y)
  | H : context [if Nat.eqb ?x ?y then _ else _] |- _ =>
      destruct (Nat.eqb_spec x y)
  end.

Section Invariants.

Variable g : Graph.
Variable preference_map : edge -> Z.
Variable compare : Z -> Z -> bool.
Variable color_map : vertex -> default_color_type.

Local Abbreviation turn := (turn g preference_map compare color_map).
Local Abbreviation reachable := (reachable g preference_map compare color_map).
Local Abbreviation current_man := (current_man g color_map).
Local Abbreviation choice := (choice g preference_map compare color_map).
Local Abbreviation unproposed := (unproposed g).
Local Abbreviation waiting := (waiting g color_map).
Local Abbreviation measure := (measure g color_map).

Lemma initial_engaged_false engaged0 a b :
  In b (adjacent g a) ->
  engaged_to_map (initial_state g engaged0) (a, b) = false.
Proof.
  intros H. simpl.
  assert (E : existsb (edge_eqb (a, b)) (edges g) = true).
  { apply existsb_exists. exists (a, b). split.
    - now apply in_edges.
    - apply edge_eqb_refl. }
  now rewrite E.
Qed.

Lemma symmetric_initial engaged0 :
  symmetric g (engaged_to_map (initial_state g engaged0)).
Proof.
  intros a b Hin He. rewrite initial_engaged_false in He by assumption.
  discriminate.
Qed.

Lemma symmetric_turn s s' :
  turn s s' -> symmetric g (engaged_to_map s) ->
  symmetric g (engaged_to_map s').
Proof.
  intros T S.
  destruct T as [L C | m w Em L C Fw | m w p Em L C Fw Eo Cmp Ex
                 | m w p Em L C Fw Eo Cmp]; simpl; try assumption.
  - destruct (choice_found _ _ _ _ _ _ C) as [_ [Hw [_ Hm]]].
    simpl in Hw, Hm. rewrite <- Em in Hw, Hm.
    intros a b Hin He. unfold put in *.
    edge_cases; edge_facts; auto; try discriminate;
      destruct (S _ _ Hin He); auto.
  - destruct (choice_found _ _ _ _ _ _ C) as [_ [Hw [_ Hm]]].
    simpl in Hw, Hm. rewrite <- Em in Hw, Hm.
    intros a b Hin He. unfold put in *.
    edge_cases; edge_facts; auto; try discriminate;
      destruct (S _ _ Hin He); auto.
Qed.

Lemma symmetric_reachable s0 s :
  reachable s0 s -> symmetric g (engaged_to_map s0) ->
  symmetric g (engaged_to_map s).
Proof.
  intros R S0. induction R; [assumption|].
  eapply symmetric_turn; eauto.
Qed.

(** *** Termination measure *)

Lemma filter_put_le (p : edge -> bool) e l :
  length (filter (fun x => negb (put p e true x)) l)
  <= length (filter (fun x => negb (p x)) l).
Proof.
  induction l as [|x l IH]; simpl; [lia|].
  unfold put at 1. destruct (edge_eqb e x); simpl.
  - destruct (negb (p x)); simpl; lia.
  - destruct (negb (p x)); simpl; lia.
Qed.

Lemma filter_put_lt (p : edge -> bool) e l :
  In e l -> p e = false ->
  length (filter (fun x => negb (put p e true x)) l)
  < length (filter (fun x => negb (p x)) l).
Proof.
  intros Hin Hp. induction l as [|x l IH]; [destruct Hin|]. simpl.
  destruct Hin as [-> | Hin].
  - rewrite put_same, Hp. simpl. pose proof (filter_put_le p e l). lia.
  - specialize (IH Hin). unfold put at 1. destruct (edge_eqb e x); simpl.
    + destruct (negb (p x)); simpl; lia.
    + destruct (negb (p x)); simpl; lia.
Qed.

Lemma waiting_le s : waiting s <= 1.
Proof. unfold waiting. destruct (_ && _ && _); lia. Qed.

Lemma waiting_at_current s :
  current_man s < num_vertices g -> current_man s = men_iterator s ->
  waiting s = 1.
Proof.
  intros L E. destruct (current_man_spec g color_map s) as [_ H].
  destruct (H L) as [B F]. unfold waiting. rewrite <- E, B, F.
  apply Nat.ltb_lt in L. now rewrite L.
Qed.

(** Every turn that does not end the loop lowers the measure: it marks a
    relation not proposed before, or it takes a free man out. *)
Lemma turn_measure s s' : turn s s' -> measure s' < measure s.
Proof.
  intros T.
  destruct (current_man_spec g color_map s) as [Lo _].
  assert (P : forall m w, m = current_man s -> m < num_vertices g ->
            choice s = Some (m, w) ->
            length
              (filter
                 (fun e => negb (put (has_proposed_map s) (m, w) true e))
                 (edges g)) < unproposed s).
  { intros m w Em L C.
    destruct (choice_found _ _ _ _ _ _ C) as [_ [Hw [Hp _]]]. simpl in Hw.
    apply filter_put_lt; [|assumption]. apply in_edges. simpl. now subst m. }
  assert (W : current_man s < num_vertices g ->
              current_man s = men_iterator s -> waiting s = 1)
    by apply waiting_at_current.
  destruct T as [L C | m w Em L C Fw | m w p Em L C Fw Eo Cmp Ex
                 | m w p Em L C Fw Eo Cmp];
    unfold measure; simpl.
  - assert (waiting (mk_state (current_man s)
              (put_v (free_map s) (current_man s) false)
              (has_proposed_map s) (engaged_to_map s)) = 0) as ->.
    { unfold waiting. simpl. rewrite put_v_same.
      now rewrite andb_false_r. }
    unfold unproposed at 1. simpl. fold (unproposed s).
    destruct (Nat.eq_dec (current_man s) (men_iterator s)) as [E|E].
    + rewrite (W L E). lia.
    + lia.
  - specialize (P m w Em L C).
    match goal with |- context [waiting ?t] => pose proof (waiting_le t) end.
    unfold unproposed at 1. simpl.
    destruct (Nat.eq_dec (current_man s) (men_iterator s)) as [E|E].
    + rewrite Em in L. rewrite (W L E). lia.
    + lia.
  - specialize (P m w Em L C).
    match goal with |- context [waiting ?t] => pose proof (waiting_le t) end.
    unfold unproposed at 1. simpl.
    destruct (Nat.eq_dec (current_man s) (men_iterator s)) as [E|E].
    + rewrite Em in L. rewrite (W L E). lia.
    + lia.
  - specialize (P m w Em L C).
    match goal with |- context [waiting ?t] => pose proof (waiting_le t) end.
    unfold unproposed at 1. simpl.
    destruct (Nat.eq_dec (current_man s) (men_iterator s)) as [E|E].
    + rewrite Em in L. rewrite (W L E). lia.
    + lia.
Qed.

Lemma measure_initial engaged0 :
  measure (initial_state g engaged0) < iteration_bound g.
Proof.
  unfold measure, iteration_bound.
  pose proof (waiting_le (initial_state g engaged0)).
  assert (unproposed (initial_state g engaged0) <= length (edges g)).
  { unfold unproposed. apply filter_length_le. }
  simpl. lia.
Qed.

(** With more fuel than the measure the loop does not run out of it, and
    the number of turns is bounded by the measure. *)
Lemma main_loop_fuel fuel : forall s,
  measure s < fuel ->
  main_loop g preference_map compare color_map fuel s = UndefinedBehaviour
  \/ exists k s', k <= measure s + 1
       /\ main_loop g preference_map compare color_map fuel s = Returned k s'.
Proof.
  induction fuel as [|fuel IH]; intros s M; [lia|]. simpl.
  destruct (iteration g preference_map compare color_map s) as [f|c|] eqn:It.
  - right. exists 1, f. split; [lia|reflexivity].
  - apply iteration_turn in It. apply turn_measure in It.
    destruct (IH c) as [U | [k [s' [Hk R]]]]; [lia| |].
    + left. now rewrite U.
    + right. exists (S k), s'. split; [lia|]. now rewrite R.
  - now left.
Qed.

Lemma main_loop_more_fuel fuel : forall s k s' fuel',
  main_loop g preference_map compare color_map fuel s = Returned k s' ->
  fuel <= fuel' ->
  main_loop g preference_map compare color_map fuel' s = Returned k s'.
Proof.
  induction fuel as [|fuel IH]; intros s k s' fuel' H L; [discriminate|].
  destruct fuel' as [|fuel']; [lia|]. simpl in *.
  destruct (iteration g preference_map compare color_map s) as [f|c|];
    try assumption.
  destruct (main_loop g preference_map compare color_map fuel c)
    as [k0 t| |] eqn:M; try discriminate.
  rewrite (IH _ _ _ fuel' M); [assumption|lia].
Qed.

End Invariants.

(** ** The loop on a proper labelling *)

Section ProperLabels.

Variable g : Graph.
Variable preference_map : edge -> Z.
Variable compare : Z -> Z -> bool.
Variable color_map : vertex -> default_color_type.

Hypothesis labels_proper : proper g color_map.

Local Abbreviation turn := (turn g preference_map compare color_map).
Local Abbreviation reachable := (reachable g preference_map compare color_map).
Local Abbreviation current_man := (current_man g color_map).
Local Abbreviation choice := (choice g preference_map compare color_map).
Local Abbreviation held := (held g color_map).
Local Abbreviation idle := (idle g color_map).
Local Abbreviation monogamous := (monogamous g).
Local Abbreviation taken := (taken g).
Local Abbreviation sound := (sound g color_map).
Local Abbreviation answered := (answered g preference_map color_map).
Local Abbreviation content := (content g preference_map compare color_map).
Local Abbreviation sound_symmetric := (sound_symmetric g color_map).
Local Abbreviation sound_held := (sound_held g color_map).
Local Abbreviation sound_monogamous := (sound_monogamous g color_map).
Local Abbreviation sound_taken := (sound_taken g color_map).

Lemma turn_facts s m w :
  m = current_man s -> m < num_vertices g -> choice s = Some (m, w) ->
  is_black (color_map m) = true /\ free_map s m = true
  /\ In w (adjacent g m) /\ In m (adjacent g w)
  /\ is_black (color_map w) = false
  /\ has_proposed_map s (m, w) = false.
Proof.
  intros Em L C.
  destruct (current_man_spec g color_map s) as [_ H].
  rewrite <- Em in H. destruct (H L) as [B F].
  destruct (choice_found _ _ _ _ _ _ C) as [_ [Hw [Hp Hm]]].
  simpl in Hw, Hm. rewrite <- Em in Hw, Hm.
  repeat split; auto.
  rewrite (labels_proper _ _ Hw), B. reflexivity.
Qed.

Lemma held_initial engaged0 : held (initial_state g engaged0).
Proof. intros w _ F. simpl in F. discriminate. Qed.

Lemma held_turn s s' : turn s s' -> held s -> held s'.
Proof.
  intros T H.
  destruct T as [L C | m w Em L C Fw | m w p Em L C Fw Eo Cmp Ex
                 | m w p Em L C Fw Eo Cmp];
    try assumption; intros x Bx Fx; simpl in *.
  - destruct (current_man_spec g color_map s) as [_ Hc].
    destruct (Hc L) as [B _].
    unfold put_v in Fx. vertex_cases; [congruence|]. apply H; assumption.
  - destruct (turn_facts _ _ _ Em L C) as [B [_ [Hw [Hm _]]]].
    unfold put_v in Fx. vertex_cases; try congruence.
    + subst x. exists m. split; [assumption|]. apply put_same.
    + destruct (H x Bx Fx) as [u [Hu Eu]]. exists u. split; [assumption|].
      unfold put. edge_cases; auto.
  - destruct (turn_facts _ _ _ Em L C) as [B [_ [Hw [Hm _]]]].
    assert (p <> m) by (intros ->; lia).
    unfold put_v in Fx. vertex_cases; try congruence.
    + subst x. exists m. split; [assumption|].
      unfold put. edge_cases; edge_facts; auto; congruence.
    + destruct (H x Bx Fx) as [u [Hu Eu]]. exists u. split; [assumption|].
      unfold put. edge_cases; edge_facts; auto; congruence.
Qed.

Lemma iteration_defined s :
  symmetric g (engaged_to_map s) -> held s ->
  iteration g preference_map compare color_map s <> Undefined.
Proof.
  intros S H. unfold iteration.
  fold (current_man s).
  destruct (num_vertices g <=? current_man s) eqn:L; [discriminate|].
  apply Nat.leb_gt in L. fold (choice s).
  destruct (choice s) as [rel|] eqn:C; [|discriminate].
  destruct (choice_found _ _ _ _ _ _ C) as [Er _].
  destruct rel as [m w]. simpl in Er. inversion Er as [Em]. simpl.
  rewrite <- Em.
  destruct (turn_facts _ _ _ Em ltac:(lia) C) as [_ [_ [_ [_ [Bw _]]]]].
  destruct (free_map s w) eqn:Fw; [discriminate|].
  destruct (engaged_relation g w (engaged_to_map s)) as [old|] eqn:Eo.
  - destruct (engaged_relation_found _ _ _ _ Eo) as [Eold [Hin He]].
    destruct (_ <? _)%Z; [|discriminate].
    rewrite Eold in He. destruct (S _ _ Hin He) as [Hb _].
    apply edge_exists_In in Hb. rewrite Hb. discriminate.
  - destruct (H w Bw Fw) as [u [Hu Eu]].
    rewrite (engaged_relation_none _ _ _ Eo u Hu) in Eu. discriminate.
Qed.

(** On a proper labelling the loop returns, within the bound on turns. *)
Lemma main_loop_returns fuel : forall s,
  symmetric g (engaged_to_map s) -> held s ->
  measure g color_map s < fuel ->
  exists k s', k <= measure g color_map s + 1
    /\ main_loop g preference_map compare color_map fuel s = Returned k s'.
Proof.
  induction fuel as [|fuel IH]; intros s Sy H M; [lia|]. simpl.
  pose proof (iteration_defined s Sy H) as D.
  destruct (iteration g preference_map compare color_map s) as [f|c|]
    eqn:It; [| |contradiction].
  - exists 1, f. split; [lia|reflexivity].
  - apply iteration_turn in It.
    pose proof (turn_measure _ _ _ _ _ _ It) as Lt.
    destruct (IH c) as [k [s' [Hk R]]].
    + eapply symmetric_turn; eauto.
    + eapply held_turn; eauto.
    + lia.
    + exists (S k), s'. split; [lia|]. now rewrite R.
Qed.

Lemma idle_turn s s' m0 :
  turn s s' -> symmetric g (engaged_to_map s) -> idle s m0 -> idle s' m0.
Proof.
  intros T S [B0 [F0 E0]].
  destruct T as [L C | m w Em L C Fw | m w p Em L C Fw Eo Cmp Ex
                 | m w p Em L C Fw Eo Cmp];
    unfold idle; simpl.
  - repeat split; auto. unfold put_v. vertex_cases; auto.
  - destruct (turn_facts _ _ _ Em L C) as [B [F [Hw [Hm [Bw _]]]]].
    assert (m <> m0) by congruence. assert (w <> m0) by congruence.
    repeat split; auto.
    + unfold put_v. vertex_cases; congruence.
    + intros u Hu. unfold put. edge_cases; edge_facts; auto; congruence.
  - destruct (turn_facts _ _ _ Em L C) as [B [F [Hw [Hm [Bw _]]]]].
    assert (m <> m0) by congruence. assert (w <> m0) by congruence.
    destruct (engaged_relation_found _ _ _ _ Eo) as [_ [Hp Ep]].
    simpl in Hp. destruct (S _ _ Hp Ep) as [Hwp Epw].
    assert (p <> m0).
    { intros ->. rewrite (E0 _ Hwp) in Epw. discriminate. }
    repeat split; auto.
    + unfold put_v. vertex_cases; congruence.
    + intros u Hu. unfold put. edge_cases; edge_facts; auto; congruence.
  - repeat split; auto.
Qed.

Lemma idle_reachable s s' m0 :
  reachable s s' -> symmetric g (engaged_to_map s) -> idle s m0 ->
  idle s' m0.
Proof.
  intros R S I. induction R as [|t t' R IH T]; [assumption|].
  eapply idle_turn; eauto. eapply symmetric_reachable; eauto.
Qed.

(** Has-proposed flags are only ever set. *)
Lemma proposed_turn s s' e :
  turn s s' -> has_proposed_map s e = true -> has_proposed_map s' e = true.
Proof.
  intros T H. destruct T; simpl; try assumption;
    unfold put; destruct (edge_eqb _ e); auto.
Qed.

Lemma proposed_reachable s s' e :
  reachable s s' -> has_proposed_map s e = true ->
  has_proposed_map s' e = true.
Proof.
  intros R H. induction R; [assumption|]. eapply proposed_turn; eauto.
Qed.

(** *** Engagements form a matching *)

Lemma no_self_relation a : ~ In a (adjacent g a).
Proof.
  intros H. pose proof (labels_proper _ _ H) as E.
  destruct (is_black (color_map a)); discriminate.
Qed.

Lemma matching_turn s s' :
  turn s s' -> symmetric g (engaged_to_map s) ->
  monogamous s -> taken s -> monogamous s' /\ taken s'.
Proof.
  intros T Sy Mo Ta.
  destruct T as [L C | m w Em L C Fw | m w p Em L C Fw Eo Cmp Ex
                 | m w p Em L C Fw Eo Cmp].
  - split; [exact Mo|]. intros a b Hin He. simpl in *.
    unfold put_v. vertex_cases; eauto.
  - destruct (turn_facts _ _ _ Em L C) as [B [F [Hw [Hm [Bw _]]]]].
    assert (m <> w) by congruence.
    split.
    + intros a b b' Hb Hb' E E'. simpl in *. unfold put in *.
      edge_cases; edge_facts; try congruence;
        try (pose proof (Ta _ _ Hb E); congruence);
        try (pose proof (Ta _ _ Hb' E'); congruence);
        eauto.
    + intros a b Hb E. simpl in *. unfold put, put_v in *.
      vertex_cases; auto. edge_cases; edge_facts; try congruence; eauto.
  - destruct (turn_facts _ _ _ Em L C) as [B [F [Hw [Hm [Bw _]]]]].
    assert (m <> w) by congruence.
    assert (p <> m) by (intros ->; lia).
    destruct (engaged_relation_found _ _ _ _ Eo) as [_ [Hp Ep]].
    simpl in Hp. destruct (Sy _ _ Hp Ep) as [Hwp Epw].
    assert (p <> w) by (intros ->; exact (no_self_relation _ Hp)).
    split.
    + intros a b b' Hb Hb' E E'. simpl in *. unfold put in *.
      edge_cases; edge_facts; try congruence;
        try (pose proof (Ta _ _ Hb E); congruence);
        try (pose proof (Ta _ _ Hb' E'); congruence);
        try (pose proof (Mo _ _ _ Hb Hp E Ep); congruence);
        try (pose proof (Mo _ _ _ Hb' Hp E' Ep); congruence);
        eauto.
    + intros a b Hb E. simpl in *. unfold put, put_v in *.
      edge_cases; edge_facts; try congruence; vertex_cases;
        try congruence; eauto.
      subst a. pose proof (Mo _ _ _ Hb Hwp E Epw). congruence.
  - split; assumption.
Qed.

Lemma matching_initial engaged0 :
  monogamous (initial_state g engaged0) /\ taken (initial_state g engaged0).
Proof.
  split.
  - intros a b b' Hb _ E. rewrite initial_engaged_false in E by assumption.
    discriminate.
  - intros a b Hb E. rewrite initial_engaged_false in E by assumption.
    discriminate.
Qed.

Lemma sound_initial engaged0 : sound (initial_state g engaged0).
Proof.
  destruct (matching_initial engaged0). constructor; auto.
  - apply symmetric_initial.
  - apply held_initial.
Qed.

Lemma sound_turn s s' : turn s s' -> sound s -> sound s'.
Proof.
  intros T [Sy He Mo Ta].
  destruct (matching_turn s s' T Sy Mo Ta). constructor; auto.
  - eapply symmetric_turn; eauto.
  - eapply held_turn; eauto.
Qed.

Lemma sound_reachable s s' : reachable s s' -> sound s -> sound s'.
Proof.
  intros R H. induction R; [assumption|]. eapply sound_turn; eauto.
Qed.

(** A man who could not propose is idle from then on. *)
Lemma exhausted_idle s :
  sound s -> current_man s < num_vertices g ->
  idle (mk_state (current_man s) (put_v (free_map s) (current_man s) false)
          (has_proposed_map s) (engaged_to_map s)) (current_man s).
Proof.
  intros So L. destruct (current_man_spec g color_map s) as [_ H].
  destruct (H L) as [B F]. unfold idle. simpl.
  rewrite put_v_same. repeat split; auto.
  intros u Hu. destruct (engaged_to_map s (current_man s, u)) eqn:E;
    [|reflexivity].
  pose proof (sound_taken _ So _ _ Hu E). congruence.
Qed.

(** *** Towards stability *)

Lemma answered_initial engaged0 : answered (initial_state g engaged0).
Proof. intros m w _ _ _ H. simpl in H. discriminate. Qed.

Lemma content_initial engaged0 : content (initial_state g engaged0).
Proof.
  intros m w w' _ Hw E. rewrite initial_engaged_false in E by assumption.
  discriminate.
Qed.

Lemma black_partner w p :
  is_black (color_map w) = false -> In p (adjacent g w) ->
  is_black (color_map p) = true.
Proof. intros B H. rewrite (labels_proper _ _ H), B. reflexivity. Qed.

Lemma answered_turn s s' :
  turn s s' -> sound s -> answered s -> answered s'.
Proof.
  intros T So An.
  destruct T as [L C | m0 w0 Em L C Fw | m0 w0 p Em L C Fw Eo Cmp Ex
                 | m0 w0 p Em L C Fw Eo Cmp]; try exact An.
  - destruct (turn_facts _ _ _ Em L C) as [B [F [Hw [Hm [Bw _]]]]].
    intros m w Bm Hin Hback P. simpl in *.
    destruct (edge_eqb (m0, w0) (m, w)) eqn:E.
    + apply edge_eqb_eq in E. inversion E; subst m w.
      exists m0. split; [assumption|]. split; [apply put_same|lia].
    + unfold put in P. rewrite E in P.
      destruct (An m w Bm Hin Hback P) as [q [Hq [Eq Le]]].
      exists q. split; [assumption|]. split; [|assumption].
      unfold put. edge_cases; auto.
  - destruct (turn_facts _ _ _ Em L C) as [B [F [Hw [Hm [Bw _]]]]].
    destruct (engaged_relation_found _ _ _ _ Eo) as [_ [Hp Ep]].
    simpl in Hp.
    pose proof (black_partner _ _ Bw Hp) as Bp.
    assert (p <> m0) by (intros ->; lia).
    assert (p <> w0) by congruence. assert (m0 <> w0) by congruence.
    intros m w Bm Hin Hback P. simpl in *.
    assert (Bw' : is_black (color_map w) = false).
    { rewrite (labels_proper _ _ Hin), Bm. reflexivity. }
    destruct (Nat.eq_dec w w0) as [-> | Nw].
    + exists m0. split; [assumption|]. split.
      * unfold put. edge_cases; edge_facts; auto; congruence.
      * destruct (edge_eqb (m0, w0) (m, w0)) eqn:E.
        { apply edge_eqb_eq in E. inversion E; subst m. lia. }
        unfold put in P. rewrite E in P.
        destruct (An m w0 Bm Hin Hback P) as [q [Hq [Eq Le]]].
        pose proof (sound_monogamous _ So _ _ _ Hq Hp Eq Ep). subst q. lia.
    + assert (P0 : has_proposed_map s (m, w) = true).
      { unfold put in P. edge_cases; edge_facts; auto; congruence. }
      destruct (An m w Bm Hin Hback P0) as [q [Hq [Eq Le]]].
      exists q. split; [assumption|]. split; [|assumption].
      unfold put. edge_cases; edge_facts; auto; congruence.
  - destruct (turn_facts _ _ _ Em L C) as [B [F [Hw [Hm [Bw _]]]]].
    destruct (engaged_relation_found _ _ _ _ Eo) as [_ [Hp Ep]].
    simpl in Hp.
    intros m w Bm Hin Hback P. simpl in *.
    destruct (edge_eqb (m0, w0) (m, w)) eqn:E.
    + apply edge_eqb_eq in E. inversion E; subst m w.
      exists p. auto.
    + unfold put in P. rewrite E in P. apply An; assumption.
Qed.

Lemma content_turn s s' :
  transitive compare -> turn s s' -> sound s -> content s -> content s'.
Proof.
  intros Tr T So Co.
  assert (Fresh : forall m0 w0 w',
            m0 = current_man s ->
            choice s = Some (m0, w0) ->
            In w' (adjacent g m0) -> In m0 (adjacent g w') ->
            put (has_proposed_map s) (m0, w0) true (m0, w') = false ->
            ~ strictly_better compare (preference_map (m0, w'))
                (preference_map (m0, w0))).
  { intros m0 w0 w' Em C Hw' Hb P.
    assert (P0 : has_proposed_map s (m0, w') = false).
    { unfold put in P. destruct (edge_eqb _ _); [discriminate|assumption]. }
    rewrite choice_eq in C. rewrite <- Em in C.
    destruct (best_relation_spec g preference_map compare m0
                (has_proposed_map s) Tr (m0, w0) C)
      as [_ [_ [_ [_ [_ [Hmax _]]]]]].
    apply Hmax.
    - apply in_out_edges. auto.
    - split; [assumption|]. simpl. now apply edge_exists_In. }
  assert (Old : forall m0 w0 m w w',
            is_black (color_map m) = true ->
            In w (adjacent g m) -> engaged_to_map s (m, w) = true ->
            In w' (adjacent g m) -> In m (adjacent g w') ->
            put (has_proposed_map s) (m0, w0) true (m, w') = false ->
            ~ strictly_better compare (preference_map (m, w'))
                (preference_map (m, w))).
  { intros m0 w0 m w w' Bm Hw E Hw' Hb P. apply Co; auto.
    unfold put in P. destruct (edge_eqb _ _); [discriminate|assumption]. }
  destruct T as [L C | m0 w0 Em L C Fw | m0 w0 p Em L C Fw Eo Cmp Ex
                 | m0 w0 p Em L C Fw Eo Cmp]; try exact Co.
  - destruct (turn_facts _ _ _ Em L C) as [B [F [Hw [Hm [Bw _]]]]].
    intros m w w' Bm Hin E Hw' Hb P. simpl in *.
    unfold put in E at 1 2.
    edge_cases; edge_facts; try congruence; eauto.
  - destruct (turn_facts _ _ _ Em L C) as [B [F [Hw [Hm [Bw _]]]]].
    intros m w w' Bm Hin E Hw' Hb P. simpl in *.
    unfold put in E at 1 2 3 4.
    edge_cases; edge_facts; try congruence; eauto.
  - intros m w w' Bm Hin E Hw' Hb P. simpl in *. eauto.
Qed.

(** Engaged men are in no blocking configuration when the women's
    preference is read as "higher score". *)
Lemma stable_state s :
  sound s -> answered s -> content s ->
  stable g preference_map (strictly_better compare)
    (fun a b => (b < a)%Z) color_map (engaged_to_map s).
Proof.
  intros So An Co p r r' Bp
    [Hr [Er [Nr [Hr' [Hb [Better [q [Hq [Eq Lt]]]]]]]]].
  destruct (has_proposed_map s (p, r')) eqn:P.
  - destruct (An p r' Bp Hr' Hb P) as [q' [Hq' [Eq' Le]]].
    pose proof (sound_monogamous _ So _ _ _ Hq Hq' Eq Eq'). subst q'. lia.
  - exact (Co p r r' Bp Hr Er Hr' Hb P Better).
Qed.

Lemma stable_reachable s0 s :
  transitive compare -> reachable s0 s ->
  sound s0 -> answered s0 -> content s0 ->
  sound s /\ answered s /\ content s.
Proof.
  intros Tr R So An Co. induction R as [|s s' R IH T]; [auto|].
  destruct IH as [So' [An' Co']]. split; [|split].
  - eapply sound_turn; eauto.
  - eapply answered_turn; eauto.
  - eapply content_turn; eauto.
Qed.

End ProperLabels.

(** ** The partitioner's verdict *)

Lemma consistent_edge g side a b :
  Bipartite.consistent g side = true -> In b (adjacent g a) ->
  side b = negb (side a).
Proof.
  unfold Bipartite.consistent. intros H Hin.
  rewrite forallb_forall in H.
  specialize (H (a, b)). simpl in H.
  assert (In (a, b) (edges g)) as Hi by now apply in_edges.
  specialize (H Hi). destruct (side a), (side b); simpl in *; congruence.
Qed.

Lemma consistent_linked g side a b :
  Bipartite.consistent g side = true -> linked g a b ->
  side b = negb (side a).
Proof.
  intros H [L | L].
  - eapply consistent_edge; eauto.
  - rewrite (consistent_edge g side b a H L). now rewrite negb_involutive.
Qed.

Lemma consistent_walk g side u k v :
  Bipartite.consistent g side = true -> walk g u k v ->
  side v = if Nat.even k then side u else negb (side u).
Proof.
  intros H W. induction W as [v | u v w k L W IH]; [reflexivity|].
  rewrite IH, (consistent_linked g side u v H L).
  rewrite Nat.even_succ, <- Nat.negb_even.
  destruct (Nat.even k); simpl; [reflexivity|apply negb_involutive].
Qed.

Lemma odd_cycle_inconsistent g side :
  has_odd_cycle g -> Bipartite.consistent g side = false.
Proof.
  intros [v [k W]].
  destruct (Bipartite.consistent g side) eqn:C; [|reflexivity].
  pose proof (consistent_walk g side v _ v C W) as E.
  rewrite Nat.even_succ, <- Nat.negb_even, Nat.even_mul in E. simpl in E.
  destruct (side v); discriminate.
Qed.

Lemma is_bipartite_rejects g color_map :
  has_odd_cycle g -> Bipartite.is_bipartite g color_map = (false, color_map).
Proof.
  intros H. unfold Bipartite.is_bipartite.
  now rewrite (odd_cycle_inconsistent g _ H).
Qed.

Lemma is_bipartite_proper g color_map :
  wf_graph g -> fst (Bipartite.is_bipartite g color_map) = true ->
  proper g (snd (Bipartite.is_bipartite g color_map)).
Proof.
  unfold Bipartite.is_bipartite. intros WF H.
  destruct (Bipartite.consistent g (Bipartite.two_color g)) eqn:C;
    [|discriminate].
  simpl. intros a b Hin.
  pose proof (adjacent_in_range g a b Hin) as La.
  pose proof (proj1 WF a b Hin) as Lb.
  apply Nat.ltb_lt in La, Lb. rewrite La, Lb.
  rewrite (consistent_edge g _ a b C Hin).
  destruct (Bipartite.two_color g a); reflexivity.
Qed.

(** ** The partitioner accepts the bipartite graphs *)

Lemma set_side_length sides v s :
  length (Bipartite.set_side sides v s) = length sides.
Proof.
  revert v. induction sides as [|x r IH]; intros [|v]; simpl; auto.
Qed.

Lemma set_side_same sides v s :
  v < length sides ->
  Bipartite.side_of (Bipartite.set_side sides v s) v = Some s.
Proof.
  unfold Bipartite.side_of. revert v.
  induction sides as [|x r IH]; intros [|v] L; simpl in *; try lia; auto.
  apply IH. lia.
Qed.

Lemma set_side_other sides v s u :
  u <> v ->
  Bipartite.side_of (Bipartite.set_side sides v s) u
  = Bipartite.side_of sides u.
Proof.
  unfold Bipartite.side_of. revert v u.
  induction sides as [|x r IH]; intros [|v] [|u] N; simpl; auto; try lia.
Qed.

Lemma side_of_labelled_range sides v :
  labelled sides v -> v < length sides.
Proof.
  unfold labelled, Bipartite.side_of. intros H.
  destruct (lt_dec v (length sides)) as [L|L]; [assumption|].
  rewrite nth_overflow in H by lia. contradiction.
Qed.

Lemma pending_set_side g sides : forall i v s,
  Bipartite.side_of sides v = None -> v < length sides ->
  pending g i (Bipartite.set_side sides v s)
  + S (length (Bipartite.neighbours g (i + v)))
  = pending g i sides.
Proof.
  unfold Bipartite.side_of.
  induction sides as [|x r IH]; intros i [|v] s H L; simpl in *; try lia.
  - subst x. rewrite Nat.add_0_r. lia.
  - specialize (IH (S i) v s H ltac:(lia)).
    replace (i + S v) with (S i + v) by lia. lia.
Qed.

Lemma in_neighbours g v u :
  In u (Bipartite.neighbours g v) <->
  In u (adjacent g v) \/ In v (adjacent g u).
Proof.
  unfold Bipartite.neighbours. rewrite in_app_iff, filter_In. split.
  - intros [H | [_ H]]; [now left|]. right. now apply edge_exists_In.
  - intros [H | H]; [now left|]. right. split.
    + apply in_seq. pose proof (adjacent_in_range g u v H). simpl.
      unfold num_vertices in *. lia.
    + now apply edge_exists_In.
Qed.

Lemma spread_keeps fuel g : forall work sides x a,
  Bipartite.side_of sides x = Some a ->
  Bipartite.side_of (Bipartite.spread fuel g work sides) x = Some a.
Proof.
  induction fuel as [|fuel IH]; intros work sides x a H; simpl; [assumption|].
  destruct work as [|[v s] rest]; [assumption|].
  destruct (Bipartite.side_of sides v) eqn:E.
  - now apply IH.
  - apply IH. rewrite set_side_other; [assumption|]. congruence.
Qed.

Lemma spread_length fuel g : forall work sides,
  length (Bipartite.spread fuel g work sides) = length sides.
Proof.
  induction fuel as [|fuel IH]; intros work sides; simpl; [reflexivity|].
  destruct work as [|[v s] rest]; [reflexivity|].
  destruct (Bipartite.side_of sides v).
  - apply IH.
  - rewrite IH. apply set_side_length.
Qed.

Section Explore.

Variable g : Graph.
Variable side : vertex -> bool.

Hypothesis graph_wf : wf_graph g.
Hypothesis side_proper :
  forall u v, In v (adjacent g u) -> side v = negb (side u).

Lemma side_linked u v : linked g u v -> side v = negb (side u).
Proof.
  intros [H | H].
  - now apply side_proper.
  - rewrite (side_proper _ _ H). now rewrite negb_involutive.
Qed.

Lemma linked_sym u v : linked g u v -> linked g v u.
Proof. unfold linked. tauto. Qed.

Lemma linked_range u v : linked g u v -> v < num_vertices g.
Proof.
  intros [H | H].
  - exact (proj1 graph_wf _ _ H).
  - eapply adjacent_in_range; eauto.
Qed.

(** The labels written before the current component was entered, and the
    flip between [side] and the labels of this component. *)
Variable old : list (option bool).
Variable flip : bool.

Hypothesis old_closed : closed g old.

Local Abbreviation exploring := (exploring g side old flip).

Lemma exploring_skip v s rest sides :
  exploring ((v, s) :: rest) sides -> labelled sides v ->
  exploring rest sides.
Proof.
  intros [Len [Old [New [Work Front]]]] Lv. repeat split; auto.
  - apply (Work v0 s0). now right.
  - apply (Work v0 s0). now right.
  - apply (Work v0 s0). now right.
  - intros u v' Lk Lu Nu.
    destruct (Front u v' Lk Lu Nu) as [H | [s' [E | H]]]; auto.
    + inversion E; subst. now left.
    + right. eauto.
Qed.

Lemma exploring_label v s rest sides :
  exploring ((v, s) :: rest) sides ->
  Bipartite.side_of sides v = None ->
  exploring
    (map (fun u => (u, negb s)) (Bipartite.neighbours g v) ++ rest)
    (Bipartite.set_side sides v s).
Proof.
  intros [Len [Old [New [Work Front]]]] Nv.
  destruct (Work v s (or_introl eq_refl)) as [Lv [Ov Es]].
  assert (Keep : forall x, x <> v ->
            Bipartite.side_of (Bipartite.set_side sides v s) x
            = Bipartite.side_of sides x)
    by (intros; now apply set_side_other).
  assert (Here : Bipartite.side_of (Bipartite.set_side sides v s) v = Some s)
    by (apply set_side_same; lia).
  repeat split.
  - now rewrite set_side_length.
  - intros x Ox. rewrite Keep; [auto|]. intros ->. contradiction.
  - intros x s' E Nx. destruct (Nat.eq_dec x v) as [-> | N].
    + congruence.
    + rewrite Keep in E by assumption. eauto.
  - apply in_app_or in H. destruct H as [H | H].
    + apply in_map_iff in H. destruct H as [u [E Hu]]. inversion E; subst.
      apply in_neighbours in Hu. eapply linked_range with (u := v). exact Hu.
    + apply (Work v0 s0). now right.
  - apply in_app_or in H. destruct H as [H | H].
    + apply in_map_iff in H. destruct H as [u [E Hu]]. inversion E; subst.
      apply in_neighbours in Hu. intros Ou. apply Ov.
      apply (old_closed v0 v); [|assumption]. now apply linked_sym.
    + apply (Work v0 s0). now right.
  - apply in_app_or in H. destruct H as [H | H].
    + apply in_map_iff in H. destruct H as [u [E Hu]]. inversion E; subst.
      apply in_neighbours in Hu. rewrite (side_linked v v0 Hu).
      destruct (side v), flip; reflexivity.
    + apply (Work v0 s0). now right.
  - intros u v' Lk Lu Nu. destruct (Nat.eq_dec u v) as [-> | N].
    + right. exists (negb s). apply in_or_app. left.
      apply in_map_iff. exists v'. split; [reflexivity|].
      now apply in_neighbours.
    + unfold labelled in Lu. rewrite Keep in Lu by assumption.
      destruct (Front u v' Lk Lu Nu) as [H | [s' [E | H]]].
      * left. unfold labelled in *.
        destruct (Nat.eq_dec v' v) as [-> | N']; [congruence|].
        now rewrite Keep.
      * inversion E; subst. left. unfold labelled. congruence.
      * right. exists s'. apply in_or_app. now right.
Qed.

Lemma spread_explores fuel : forall work sides,
  exploring work sides ->
  length work + pending g 0 sides <= fuel ->
  exploring [] (Bipartite.spread fuel g work sides)
  /\ pending g 0 (Bipartite.spread fuel g work sides) <= pending g 0 sides.
Proof.
  induction fuel as [|fuel IH]; intros work sides Ex Fuel.
  - destruct work; simpl in *; [auto|lia].
  - simpl. destruct work as [|[v s] rest]; [auto|].
    destruct (Bipartite.side_of sides v) eqn:E.
    + apply IH.
      * eapply exploring_skip; eauto. unfold labelled. congruence.
      * simpl in Fuel. lia.
    + pose proof (exploring_label _ _ _ _ Ex E) as Ex'.
      destruct Ex as [Len [_ [_ [Work _]]]].
      destruct (Work v s (or_introl eq_refl)) as [Lv _].
      pose proof (pending_set_side g sides 0 v s E ltac:(lia)) as P.
      simpl in P.
      destruct (IH _ _ Ex') as [R Le].
      * rewrite length_app, length_map. simpl in Fuel. lia.
      * split; [assumption|lia].
Qed.

End Explore.

Section Components.

Variable g : Graph.
Variable side : vertex -> bool.

Hypothesis graph_wf : wf_graph g.
Hypothesis side_proper :
  forall u v, In v (adjacent g u) -> side v = negb (side u).

Local Abbreviation coloured := (coloured g).

Lemma spread_done fuel sides : Bipartite.spread fuel g [] sides = sides.
Proof. destruct fuel; reflexivity. Qed.

Lemma spread_seed fuel sides v :
  coloured sides -> v < num_vertices g ->
  S (pending g 0 sides) <= fuel ->
  coloured (Bipartite.spread fuel g [(v, true)] sides)
  /\ labelled (Bipartite.spread fuel g [(v, true)] sides) v
  /\ pending g 0 (Bipartite.spread fuel g [(v, true)] sides)
     <= pending g 0 sides.
Proof.
  intros [Len [Cl Op]] Lv Fuel.
  destruct (Bipartite.side_of sides v) eqn:E.
  - destruct fuel as [|fuel]; [lia|]. simpl. rewrite E, spread_done.
    repeat split; auto. unfold labelled. congruence.
  - assert (Ex : exploring g side sides (xorb (side v) true)
                   [(v, true)] sides).
    { repeat split; auto.
      - intros x s Hx Nx. exfalso. apply Nx. unfold labelled. congruence.
      - destruct H as [H | []]. inversion H; subst. assumption.
      - destruct H as [H | []]. inversion H; subst.
        unfold labelled. congruence.
      - destruct H as [H | []]. inversion H; subst.
        destruct (side v0); reflexivity.
      - intros u v' _ Lu Nu. contradiction. }
    destruct (spread_explores g side graph_wf side_proper sides
                (xorb (side v) true) Cl fuel _ _ Ex)
      as [[Len' [Old [New [_ Front]]]] Le]; [simpl; lia|].
    set (r := Bipartite.spread fuel g [(v, true)] sides) in *.
    assert (Known : forall x, labelled sides x -> labelled r x).
    { intros x Hx. unfold labelled. now rewrite (Old x Hx). }
    repeat split; auto.
    + intros u w Lk Lu.
      destruct (Bipartite.side_of sides u) eqn:Eu.
      * apply Known. apply (Cl u w Lk). unfold labelled. congruence.
      * destruct (Front u w Lk Lu) as [H | [s []]]; [|assumption].
        unfold labelled. congruence.
    + intros u w a a' Lk Eu Ew.
      destruct (Bipartite.side_of sides u) eqn:Su.
      * assert (Lu : labelled sides u) by (unfold labelled; congruence).
        pose proof (Cl u w Lk Lu) as Lw.
        rewrite (Old u Lu) in Eu. rewrite (Old w Lw) in Ew.
        eapply Op; eauto.
      * assert (Nu : ~ labelled sides u) by (unfold labelled; congruence).
        assert (Nw : ~ labelled sides w).
        { intros Lw. apply Nu. apply (Cl w u); [|assumption].
          unfold linked in *. tauto. }
        rewrite (New u a Eu Nu), (New w a' Ew Nw).
        rewrite (side_linked g side side_proper u w Lk).
        destruct (side u), (side v); reflexivity.
    + subst r. destruct fuel as [|fuel]; [lia|]. simpl. rewrite E.
      unfold labelled. erewrite spread_keeps; [discriminate|].
      apply set_side_same. lia.
Qed.

Lemma color_components_spec fuel : forall seeds sides,
  coloured sides ->
  (forall v, In v seeds -> v < num_vertices g) ->
  S (pending g 0 sides) <= fuel ->
  coloured (Bipartite.color_components fuel g seeds sides)
  /\ (forall v, In v seeds ->
        labelled (Bipartite.color_components fuel g seeds sides) v).
Proof.
  assert (Keeps : forall seeds sides x,
            labelled sides x ->
            labelled (Bipartite.color_components fuel g seeds sides) x).
  { induction seeds as [|v seeds IH]; intros sides x Lx; simpl; [assumption|].
    apply IH. unfold labelled in *.
    destruct (Bipartite.side_of sides x) eqn:E; [|contradiction].
    erewrite spread_keeps; [discriminate|eassumption]. }
  induction seeds as [|v seeds IH]; intros sides Co Range Fuel; simpl.
  - split; [assumption|]. intros v [].
  - destruct (spread_seed fuel sides v Co (Range v (or_introl eq_refl)) Fuel)
      as [Co' [Lv Le]].
    destruct (IH _ Co' (fun x Hx => Range x (or_intror Hx)) ltac:(lia))
      as [Co'' All].
    split; [assumption|]. intros x [<- | Hx]; auto.
Qed.

Lemma pending_initial k : forall i,
  pending g i (repeat None k)
  <= k + length (flat_map (fun u => out_edges u g) (seq i k))
     + k * num_vertices g.
Proof.
  induction k as [|k IH]; intros i; simpl; [lia|].
  specialize (IH (S i)). rewrite length_app.
  unfold out_edges at 1. rewrite length_map.
  unfold Bipartite.neighbours. rewrite length_app.
  pose proof (filter_length_le (fun u => edge_exists u i g) (vertices g)) as F.
  unfold vertices in F at 2. rewrite length_seq in F. lia.
Qed.

Lemma coloured_initial : coloured (repeat None (num_vertices g)).
Proof.
  assert (N : forall v,
            Bipartite.side_of (repeat None (num_vertices g)) v = None).
  { intros v. unfold Bipartite.side_of. apply nth_repeat. }
  repeat split.
  - apply repeat_length.
  - intros u v _ Lu. unfold labelled in Lu. now rewrite N in Lu.
  - intros u v a a' _ Eu. rewrite N in Eu. discriminate.
Qed.

Lemma two_color_consistent :
  Bipartite.consistent g (Bipartite.two_color g) = true.
Proof.
  unfold Bipartite.consistent, Bipartite.two_color.
  set (n := num_vertices g).
  set (fuel := S (n + length (edges g) + n * n)).
  set (r := Bipartite.color_components fuel g (vertices g) (repeat None n)).
  destruct (color_components_spec fuel (vertices g) (repeat None n))
    as [[_ [_ Op]] All].
  - apply coloured_initial.
  - intros v Hv. apply in_seq in Hv. simpl in Hv. exact (proj2 Hv).
  - pose proof (pending_initial n 0) as P. unfold fuel, edges, vertices.
    fold n. lia.
  - fold r in Op, All. apply forallb_forall. intros [u v] He.
    apply in_edges in He. simpl in *.
    assert (Lu : labelled r u).
    { apply All. apply in_seq. pose proof (adjacent_in_range g u v He).
      simpl. fold n. lia. }
    assert (Lw : labelled r v).
    { apply All. apply in_seq. pose proof (proj1 graph_wf u v He).
      simpl. fold n. lia. }
    unfold labelled in Lu, Lw.
    destruct (Bipartite.side_of r u) as [a|] eqn:Eu; [|contradiction].
    destruct (Bipartite.side_of r v) as [a'|] eqn:Ev; [|contradiction].
    rewrite (Op u v a a' (or_introl He) Eu Ev).
    destruct a; reflexivity.
Qed.

End Components.

(** The partitioner accepts exactly the bipartite graphs. *)
Lemma bipartite_accepted g color_map :
  wf_graph g ->
  (bipartite g <-> fst (Bipartite.is_bipartite g color_map) = true).
Proof.
  intros WF. unfold Bipartite.is_bipartite. split.
  - intros [side P]. now rewrite (two_color_consistent g side WF P).
  - destruct (Bipartite.consistent g (Bipartite.two_color g)) eqn:C;
      [|discriminate].
    intros _. exists (Bipartite.two_color g). intros u v H.
    eapply consistent_edge; eauto.
Qed.

(** ** Properties of the call *)

(** C10: [is_engaged] always answers [true] in its boolean component; when
    the vertex has no engaged out-relation the answer is the default vertex
    paired with [true], and a vertex with an engaged out-relation gets
    [true] as well: the boolean tells nothing. *)
Theorem is_engaged_always_true (v : vertex) (g : Graph)
  (engaged_to_map : edge -> bool) :
  snd (is_engaged v g engaged_to_map) = true
  /\ ((forall u, In u (adjacent g v) -> engaged_to_map (v, u) = false) ->
      is_engaged v g engaged_to_map = (0, true))
  /\ (forall u, In u (adjacent g v) -> engaged_to_map (v, u) = true ->
      exists u', In u' (adjacent g v) /\ engaged_to_map (v, u') = true
        /\ is_engaged v g engaged_to_map = (u', true)).
Proof.
  unfold is_engaged. split; [|split].
  - destruct (find engaged_to_map (out_edges v g)); reflexivity.
  - intros H. destruct (find _ _) as [rel|] eqn:F; [|reflexivity].
    apply find_some in F. destruct F as [Hin He].
    apply in_out_edges in Hin. destruct rel as [a b]. simpl in Hin.
    destruct Hin as [-> Hin]. rewrite (H b Hin) in He. discriminate.
  - intros u Hu Eu. destruct (find _ _) as [rel|] eqn:F.
    + apply find_some in F. destruct F as [Hin He].
      apply in_out_edges in Hin. destruct rel as [a b]. simpl in Hin.
      destruct Hin as [-> Hin]. exists b. auto.
    + assert (In (v, u) (out_edges v g)) as Hi by (apply in_out_edges; auto).
      rewrite (find_none _ _ F (v, u) Hi) in Eu. discriminate.
Qed.

Lemma engaged_as_returned g expected k r :
  engaged_as g expected k r = true ->
  exists s, r = Returned k s
    /\ forall e, In e (edges g) -> engaged_to_map s e = expected e.
Proof.
  destruct r as [k' s| |]; simpl; try discriminate.
  intros H. apply andb_true_iff in H. destruct H as [Ek Ok].
  apply Nat.eqb_eq in Ek. subst k'. exists s. split; [reflexivity|].
  intros e He. rewrite forallb_forall in Ok. apply eqb_prop. now apply Ok.
Qed.

Lemma stable_marriage_run fuel c compare :
  snd (stable_marriage fuel c compare) = run fuel c compare.
Proof. reflexivity. Qed.

Lemma stable_marriage_engaged fuel c compare k s :
  run fuel c compare = Returned k s ->
  st_engaged (fst (stable_marriage fuel c compare)) = engaged_to_map s.
Proof.
  unfold run, labels_of, stable_marriage. simpl. now intros ->.
Qed.

Lemma test_run :
  engaged_as Test.g Test.expected 5 (run 5 Test.store Test.greater_equal)
  = true.
Proof. vm_compute. reflexivity. Qed.

Lemma test_run_men_black :
  engaged_as Test.g Test.expected 6
    (main_loop Test.g Test.map_preferences Test.greater_equal Test.men_black
       6 (initial_state Test.g (fun _ => false)))
  = true.
Proof. vm_compute. reflexivity. Qed.

(** C2: on the instance of the test, with greater-or-equal as policy, the
    call returns after five turns of the loop and leaves exactly the
    relations of the pairs (0,4), (1,5), (2,3) engaged, in both directions;
    every other relation is not engaged.  The partitioner labels the women
    (3-5) black, so they are the ones who propose; the loop run with the men
    (0-2) black instead returns the same engagement, after six turns. *)
Theorem three_men_three_women (fuel : nat) :
  6 <= fuel ->
  (exists s,
      snd (stable_marriage fuel Test.store Test.greater_equal) = Returned 5 s)
  /\ (forall e, In e (edges Test.g) ->
        st_engaged (fst (stable_marriage fuel Test.store Test.greater_equal)) e
        = Test.expected e)
  /\ (forall v, v < 6 ->
        is_black
          (st_color (fst (stable_marriage fuel Test.store Test.greater_equal))
             v) = (3 <=? v))
  /\ (exists s,
        main_loop Test.g Test.map_preferences Test.greater_equal
          Test.men_black fuel (initial_state Test.g (fun _ => false))
        = Returned 6 s
        /\ forall e, In e (edges Test.g) ->
             engaged_to_map s e = Test.expected e).
Proof.
  intros L.
  destruct (engaged_as_returned _ _ _ _ test_run) as [s [R E]].
  destruct (engaged_as_returned _ _ _ _ test_run_men_black) as [s' [R' E']].
  assert (Rf : run fuel Test.store Test.greater_equal = Returned 5 s).
  { unfold run in *. eapply main_loop_more_fuel; eauto. lia. }
  split; [|split; [|split]].
  - exists s. now rewrite stable_marriage_run.
  - intros e He. rewrite (stable_marriage_engaged _ _ _ _ _ Rf). now apply E.
  - intros v Lv. unfold stable_marriage. simpl st_color.
    do 6 (destruct v as [|v]; [vm_compute; reflexivity|]). lia.
  - exists s'. split; [|exact E'].
    eapply main_loop_more_fuel; eauto.
Qed.

Lemma three_men_three_women_witness :
  (exists s,
      snd (stable_marriage 6 Test.store Test.greater_equal) = Returned 5 s)
  /\ (forall e, In e (edges Test.g) ->
        st_engaged (fst (stable_marriage 6 Test.store Test.greater_equal)) e
        = Test.expected e)
  /\ (forall v, v < 6 ->
        is_black
          (st_color (fst (stable_marriage 6 Test.store Test.greater_equal))
             v) = (3 <=? v))
  /\ (exists s,
        main_loop Test.g Test.map_preferences Test.greater_equal
          Test.men_black 6 (initial_state Test.g (fun _ => false))
        = Returned 6 s
        /\ forall e, In e (edges Test.g) ->
             engaged_to_map s e = Test.expected e).
Proof. apply (three_men_three_women 6). lia. Defined.

Lemma returned_with_true f r :
  returned_with f r = true -> exists k s, r = Returned k s /\ f k s = true.
Proof.
  destruct r as [k s| |]; simpl; try discriminate. intros H. eauto.
Qed.

Lemma main_loop_turns g preference_map compare color_map fuel :
  forall s k s',
  main_loop g preference_map compare color_map fuel s = Returned k s' ->
  1 <= k.
Proof.
  induction fuel as [|fuel IH]; intros s k s' H; simpl in H; [discriminate|].
  destruct (iteration g preference_map compare color_map s) as [f|c|];
    try discriminate.
  - inversion H. lia.
  - destruct (main_loop g preference_map compare color_map fuel c);
      try discriminate. inversion H. lia.
Qed.

Lemma triangle_odd_cycle : has_odd_cycle Triangle.g.
Proof.
  exists 0, 1. simpl.
  apply walk_link with (v := 1); [left; simpl; auto|].
  apply walk_link with (v := 2); [left; simpl; auto|].
  apply walk_link with (v := 0); [left; simpl; auto|].
  apply walk_stop.
Qed.

(** C3, as stated, fails: the triangle has an odd cycle and the partitioner
    rejects it, yet the call runs two turns of the matching loop on the
    labels found in the caller's storage: person 1 proposes to person 2 and
    the two are left engaged. *)
Lemma triangle_is_matched :
  wf_graph Triangle.g
  /\ has_odd_cycle Triangle.g
  /\ fst (Bipartite.is_bipartite Triangle.g (st_color Triangle.store)) = false
  /\ exists s,
       snd (stable_marriage 2 Triangle.store Policy.greater) = Returned 2 s
       /\ engaged_to_map s (1, 2) = true /\ engaged_to_map s (2, 1) = true
       /\ has_proposed_map s (1, 2) = true.
Proof.
  split; [apply wf_graphb_sound; vm_compute; reflexivity|].
  split; [exact triangle_odd_cycle|]. split; [vm_compute; reflexivity|].
  assert (H : returned_with
                (fun k s => (k =? 2) && engaged_to_map s (1, 2)
                            && engaged_to_map s (2, 1)
                            && has_proposed_map s (1, 2))
                (run 2 Triangle.store Policy.greater) = true)
    by (vm_compute; reflexivity).
  apply returned_with_true in H. destruct H as [k [s [R H]]].
  rewrite !andb_true_iff in H. destruct H as [[[Ek E1] E2] E3].
  apply Nat.eqb_eq in Ek. subst k.
  exists s. rewrite stable_marriage_run. auto.
Qed.

(** C3, amended: a graph with an odd cycle is not bipartite, the
    partitioner answers [false] to [stable_marriage] and leaves the labels
    as the caller gave them; [stable_marriage] drops that answer: the
    matching loop runs on those labels, for at least one turn, and with fuel
    for [iteration_bound] turns it ends in a returned state or in undefined
    behaviour, never in a report of failure. *)
Theorem odd_cycle_still_matched (c : caller_store)
  (compare : Z -> Z -> bool) (fuel : nat) :
  wf_graph (st_graph c) ->
  has_odd_cycle (st_graph c) ->
  iteration_bound (st_graph c) <= fuel ->
  ~ bipartite (st_graph c)
  /\ Bipartite.is_bipartite (st_graph c) (st_color c) = (false, st_color c)
  /\ st_color (fst (stable_marriage fuel c compare)) = st_color c
  /\ snd (stable_marriage fuel c compare)
     = main_loop (st_graph c) (st_preference c) compare (st_color c) fuel
         (initial_state (st_graph c) (st_engaged c))
  /\ (snd (stable_marriage fuel c compare) = UndefinedBehaviour
      \/ exists k s, 1 <= k
           /\ snd (stable_marriage fuel c compare) = Returned k s).
Proof.
  intros WF Odd Fuel.
  pose proof (is_bipartite_rejects (st_graph c) (st_color c) Odd) as Rej.
  assert (El : labels_of c = st_color c).
  { unfold labels_of. now rewrite Rej. }
  split.
  { intros Bip. apply (bipartite_accepted _ (st_color c) WF) in Bip.
    rewrite Rej in Bip. discriminate. }
  split; [exact Rej|]. split; [|split].
  - unfold stable_marriage. simpl. now rewrite Rej.
  - rewrite stable_marriage_run. unfold run. now rewrite El.
  - rewrite stable_marriage_run. unfold run.
    pose proof (measure_initial (st_graph c) (labels_of c) (st_engaged c))
      as M.
    destruct (main_loop_fuel (st_graph c) (st_preference c) compare
                (labels_of c) fuel
                (initial_state (st_graph c) (st_engaged c)))
      as [U | [k [s [_ R]]]]; [lia|now left|].
    right. exists k, s. split; [|assumption].
    eapply main_loop_turns; eauto.
Qed.

Lemma odd_cycle_still_matched_witness :
  ~ bipartite Triangle.g
  /\ Bipartite.is_bipartite Triangle.g (st_color Triangle.store)
     = (false, st_color Triangle.store)
  /\ st_color (fst (stable_marriage 11 Triangle.store Policy.greater))
     = st_color Triangle.store
  /\ snd (stable_marriage 11 Triangle.store Policy.greater)
     = main_loop Triangle.g Triangle.preference Policy.greater
         (st_color Triangle.store) 11
         (initial_state Triangle.g (st_engaged Triangle.store))
  /\ (snd (stable_marriage 11 Triangle.store Policy.greater)
      = UndefinedBehaviour
      \/ exists k s, 1 <= k
           /\ snd (stable_marriage 11 Triangle.store Policy.greater)
              = Returned k s).
Proof.
  apply (odd_cycle_still_matched Triangle.store Policy.greater 11).
  - apply wf_graphb_sound. vm_compute. reflexivity.
  - exact triangle_odd_cycle.
  - vm_compute. lia.
Defined.

(** C9, as stated, fails: in the test the caller hands in labels that are
    all white, and after the call person 3 is labelled black. *)
Lemma labels_are_overwritten :
  st_color Test.store 3 = white_color
  /\ st_color (fst (stable_marriage 5 Test.store Test.greater_equal)) 3
     = black_color.
Proof. split; vm_compute; reflexivity. Qed.

(** C9, amended: the call leaves the graph and the preference scores as
    they were.  The label storage is an output: it holds what the
    partitioner wrote, which is the caller's labelling when the partitioner
    rejects the graph and a white or black label on every vertex when it
    accepts; the matching loop itself never writes a label (its states carry
    none). *)
Theorem inputs_left_alone (fuel : nat) (c : caller_store)
  (compare : Z -> Z -> bool) :
  st_graph (fst (stable_marriage fuel c compare)) = st_graph c
  /\ st_preference (fst (stable_marriage fuel c compare)) = st_preference c
  /\ st_color (fst (stable_marriage fuel c compare))
     = snd (Bipartite.is_bipartite (st_graph c) (st_color c))
  /\ (fst (Bipartite.is_bipartite (st_graph c) (st_color c)) = false ->
      st_color (fst (stable_marriage fuel c compare)) = st_color c)
  /\ (fst (Bipartite.is_bipartite (st_graph c) (st_color c)) = true ->
      forall v, v < num_vertices (st_graph c) ->
        st_color (fst (stable_marriage fuel c compare)) v = white_color
        \/ st_color (fst (stable_marriage fuel c compare)) v = black_color).
Proof.
  unfold stable_marriage. simpl. repeat split.
  - unfold Bipartite.is_bipartite.
    destruct (Bipartite.consistent _ _); simpl; [discriminate|reflexivity].
  - unfold Bipartite.is_bipartite.
    destruct (Bipartite.consistent _ _); simpl; [|discriminate].
    intros _ v L. apply Nat.ltb_lt in L. rewrite L.
    destruct (Bipartite.two_color (st_graph c) v); simpl; auto.
Qed.

Lemma symmetric_equal g engaged a b :
  symmetric g engaged -> In b (adjacent g a) -> In a (adjacent g b) ->
  engaged (a, b) = engaged (b, a).
Proof.
  intros Sy Hb Ha.
  destruct (engaged (a, b)) eqn:E1.
  - destruct (Sy _ _ Hb E1) as [_ ->]. reflexivity.
  - destruct (engaged (b, a)) eqn:E2; [|reflexivity].
    destruct (Sy _ _ Ha E2) as [_ E]. congruence.
Qed.

(** C8: in every state the loop goes through after initialisation, and in
    the state the call returns, the engaged flags of the two relations of a
    pair that has both are equal. *)
Theorem engaged_both_ways (c : caller_store) (compare : Z -> Z -> bool) :
  wf_graph (st_graph c) ->
  (forall s,
      reachable (st_graph c) (st_preference c) compare (labels_of c)
        (initial_state (st_graph c) (st_engaged c)) s ->
      forall a b, In b (adjacent (st_graph c) a) ->
        In a (adjacent (st_graph c) b) ->
        engaged_to_map s (a, b) = engaged_to_map s (b, a))
  /\ (forall fuel k s,
        snd (stable_marriage fuel c compare) = Returned k s ->
        forall a b, In b (adjacent (st_graph c) a) ->
          In a (adjacent (st_graph c) b) ->
          st_engaged (fst (stable_marriage fuel c compare)) (a, b)
          = st_engaged (fst (stable_marriage fuel c compare)) (b, a)).
Proof.
  intros _.
  assert (Reach : forall s,
      reachable (st_graph c) (st_preference c) compare (labels_of c)
        (initial_state (st_graph c) (st_engaged c)) s ->
      symmetric (st_graph c) (engaged_to_map s)).
  { intros s R. eapply symmetric_reachable; eauto.
    apply symmetric_initial. }
  split.
  - intros s R a b Hb Ha. apply symmetric_equal with (g := st_graph c); auto.
  - intros fuel k s R a b Hb Ha. rewrite stable_marriage_run in R.
    rewrite (stable_marriage_engaged _ _ _ _ _ R).
    destruct (main_loop_reaches _ _ _ _ _ _ _ _ R) as [s' [Rs F]].
    apply iteration_finished in F. destruct F as [_ ->]. simpl.
    apply symmetric_equal with (g := st_graph c); auto.
Qed.

Lemma engaged_both_ways_witness :
  (forall s,
      reachable Test.g Test.map_preferences Test.greater_equal
        (labels_of Test.store)
        (initial_state Test.g (st_engaged Test.store)) s ->
      forall a b, In b (adjacent Test.g a) -> In a (adjacent Test.g b) ->
        engaged_to_map s (a, b) = engaged_to_map s (b, a))
  /\ (forall fuel k s,
        snd (stable_marriage fuel Test.store Test.greater_equal)
        = Returned k s ->
        forall a b, In b (adjacent Test.g a) -> In a (adjacent Test.g b) ->
          st_engaged (fst (stable_marriage fuel Test.store Test.greater_equal))
            (a, b)
          = st_engaged
              (fst (stable_marriage fuel Test.store Test.greater_equal))
              (b, a)).
Proof.
  apply (engaged_both_ways Test.store Test.greater_equal).
  apply wf_graphb_sound. vm_compute. reflexivity.
Defined.

(** C5: the loop never runs on for ever: on every graph, with fuel for
    [iteration_bound] turns, the call does not run out of fuel.  On a
    bipartite graph it returns, after at most [iteration_bound] turns, and
    every turn but the last either sets the has-proposed flag of
    a relation that did not have it, and the flag stays set in every later
    state (the turns that engage a free man are among these), or takes out
    a free man that could not propose, who is never free again. *)
Theorem main_loop_terminates (c : caller_store) (compare : Z -> Z -> bool) :
  wf_graph (st_graph c) ->
  (forall fuel, iteration_bound (st_graph c) <= fuel ->
     snd (stable_marriage fuel c compare) <> OutOfFuel)
  /\ (bipartite (st_graph c) ->
      (exists k s,
          k <= iteration_bound (st_graph c)
          /\ forall fuel, iteration_bound (st_graph c) <= fuel ->
               snd (stable_marriage fuel c compare) = Returned k s)
      /\ (forall s s',
            reachable (st_graph c) (st_preference c) compare (labels_of c)
              (initial_state (st_graph c) (st_engaged c)) s ->
            iteration (st_graph c) (st_preference c) compare (labels_of c) s
            = Continue s' ->
            (exists e, In e (edges (st_graph c))
               /\ has_proposed_map s e = false
               /\ forall s'',
                    reachable (st_graph c) (st_preference c) compare
                      (labels_of c) s' s'' ->
                    has_proposed_map s'' e = true)
            \/ (free_map s (men_iterator s') = true
                /\ is_black (labels_of c (men_iterator s')) = true
                /\ forall s'',
                     reachable (st_graph c) (st_preference c) compare
                       (labels_of c) s' s'' ->
                     free_map s'' (men_iterator s') = false))).
Proof.
  intros WF. split.
  { intros fuel Hf. rewrite stable_marriage_run. unfold run.
    pose proof (measure_initial (st_graph c) (labels_of c) (st_engaged c))
      as M.
    destruct (main_loop_fuel (st_graph c) (st_preference c) compare
                (labels_of c) fuel
                (initial_state (st_graph c) (st_engaged c)))
      as [U | [k [s [_ R]]]]; [lia| |]; congruence. }
  intros Bip.
  pose proof (proj1 (bipartite_accepted _ (st_color c) WF) Bip) as Acc.
  pose proof (is_bipartite_proper _ _ WF Acc) as P. fold (labels_of c) in P.
  set (g := st_graph c) in *. set (s0 := initial_state g (st_engaged c)).
  pose proof (sound_initial g (labels_of c) (st_engaged c)) as So0.
  fold s0 in So0. split.
  - pose proof (measure_initial g (labels_of c) (st_engaged c)) as M.
    fold s0 in M.
    destruct (main_loop_returns g (st_preference c) compare (labels_of c) P
                (iteration_bound g) s0
                (sound_symmetric _ _ _ So0) (sound_held _ _ _ So0) M)
      as [k [s [Hk R]]].
    exists k, s. split; [lia|]. intros fuel Hf.
    rewrite stable_marriage_run. unfold run.
    eapply main_loop_more_fuel; eauto.
  - intros s s' R It. apply iteration_turn in It.
    pose proof (sound_reachable g (st_preference c) compare (labels_of c) P
                  s0 s R So0) as So.
    assert (Prop_case : forall m w,
              m = current_man g (labels_of c) s -> m < num_vertices g ->
              choice g (st_preference c) compare (labels_of c) s
              = Some (m, w) ->
              forall f e',
                exists e, In e (edges g) /\ has_proposed_map s e = false
                  /\ forall s'',
                       reachable g (st_preference c) compare (labels_of c)
                         (mk_state m f (put (has_proposed_map s) (m, w) true)
                            e') s'' ->
                       has_proposed_map s'' e = true).
    { intros m w Em L C f e'.
      destruct (turn_facts g (st_preference c) compare (labels_of c) P
                  s m w Em L C) as [_ [_ [Hw [_ [_ Hp]]]]].
      exists (m, w). split; [now apply in_edges|]. split; [assumption|].
      intros s'' R'. eapply proposed_reachable; eauto. simpl.
      apply put_same. }
    destruct It as [L C | m w Em L C Fw | m w p Em L C Fw Eo Cmp Ex
                   | m w p Em L C Fw Eo Cmp].
    + right. simpl.
      destruct (current_man_spec g (labels_of c) s) as [_ H].
      destruct (H L) as [B F]. repeat split; auto.
      intros s'' R'.
      pose proof (exhausted_idle g (labels_of c) s So L) as I.
      eapply idle_reachable in I; eauto.
      * destruct I as [_ [I _]]. exact I.
      * simpl. apply (sound_symmetric _ _ _ So).
    + left. apply Prop_case; auto.
    + left. apply Prop_case; auto.
    + left. apply Prop_case; auto.
Qed.

Lemma test_accepted :
  wf_graph Test.g
  /\ fst (Bipartite.is_bipartite Test.g (st_color Test.store)) = true.
Proof.
  split; [apply wf_graphb_sound|]; vm_compute; reflexivity.
Defined.

Lemma test_bipartite : bipartite Test.g.
Proof.
  exact (proj2 (bipartite_accepted Test.g (st_color Test.store)
                  (proj1 test_accepted)) (proj2 test_accepted)).
Defined.

Lemma main_loop_terminates_witness :
  (forall fuel, iteration_bound Test.g <= fuel ->
     snd (stable_marriage fuel Test.store Test.greater_equal) <> OutOfFuel)
  /\ exists k s,
       k <= iteration_bound Test.g
       /\ forall fuel, iteration_bound Test.g <= fuel ->
            snd (stable_marriage fuel Test.store Test.greater_equal)
            = Returned k s.
Proof.
  destruct (main_loop_terminates Test.store Test.greater_equal
              (proj1 test_accepted)) as [Fuel Acc].
  split; [exact Fuel|].
  exact (proj1 (Acc test_bipartite)).
Defined.

(** The policies used by the instances are transitive. *)
Lemma greater_transitive : transitive Policy.greater.
Proof.
  unfold transitive, Policy.greater. intros a b c H1 H2.
  apply Z.ltb_lt in H1, H2. apply Z.ltb_lt. lia.
Defined.

Lemma less_transitive : transitive Policy.less.
Proof.
  unfold transitive, Policy.less. intros a b c H1 H2.
  apply Z.ltb_lt in H1, H2. apply Z.ltb_lt. lia.
Qed.

Lemma greater_equal_transitive : transitive Test.greater_equal.
Proof.
  unfold transitive, Test.greater_equal. intros a b c H1 H2.
  apply Z.leb_le in H1, H2. apply Z.leb_le. lia.
Defined.

(** C6, as stated, fails: with greater-or-equal as policy and two viable
    relations of equal score, the scan settles on the one met last, (2,1),
    where the first in iteration order is (2,0); the call engages 2 with 1. *)
Lemma tie_goes_to_last :
  wf_graph Tie.g
  /\ fst (best_relation Tie.g Tie.preference Test.greater_equal 2
         (fun _ => false)) = Some (2, 1)
  /\ first_best Tie.g Tie.preference Test.greater_equal 2 (fun _ => false)
     = Some (2, 0)
  /\ exists s,
       snd (stable_marriage 2 Tie.store Test.greater_equal) = Returned 2 s
       /\ engaged_to_map s (2, 1) = true /\ engaged_to_map s (2, 0) = false.
Proof.
  split; [apply wf_graphb_sound; vm_compute; reflexivity|].
  split; [vm_compute; reflexivity|]. split; [vm_compute; reflexivity|].
  assert (H : returned_with
                (fun k s => (k =? 2) && engaged_to_map s (2, 1)
                            && negb (engaged_to_map s (2, 0)))
                (run 2 Tie.store Test.greater_equal) = true)
    by (vm_compute; reflexivity).
  apply returned_with_true in H. destruct H as [k [s [R H]]].
  rewrite !andb_true_iff in H. destruct H as [[Ek E1] E2].
  apply Nat.eqb_eq in Ek. subst k. apply negb_true_iff in E2.
  exists s. rewrite stable_marriage_run. auto.
Qed.

(** C6, amended: when a turn sets the has-proposed flag of a relation, that
    relation is an out-relation of the current man that was viable (flag not
    set, reverse relation present), and, the policy being transitive, no
    viable out-relation of his is strictly better under the policy.  Among
    viable relations of equal score it is the first in iteration order when
    the policy is false on equal scores (greater), and the last when the
    policy is true on equal scores (greater-or-equal, as in the test). *)
Theorem proposal_choice (g : Graph) (preference_map : edge -> Z)
  (compare : Z -> Z -> bool) (color_map : vertex -> default_color_type)
  (s s' : state) (rel : edge) :
  wf_graph g ->
  transitive compare ->
  iteration g preference_map compare color_map s = Continue s' ->
  has_proposed_map s rel = false ->
  has_proposed_map s' rel = true ->
  exists l1 l2,
    out_edges (men_iterator s') g = l1 ++ rel :: l2
    /\ viable g (men_iterator s') (has_proposed_map s) rel
    /\ (forall e, In e (out_edges (men_iterator s') g) ->
          viable g (men_iterator s') (has_proposed_map s) e ->
          ~ strictly_better compare (preference_map e) (preference_map rel))
    /\ ((forall x, compare x x = false) ->
        forall e, In e l1 ->
          viable g (men_iterator s') (has_proposed_map s) e ->
          preference_map e <> preference_map rel)
    /\ ((forall x, compare x x = true) ->
        forall e, In e l2 ->
          viable g (men_iterator s') (has_proposed_map s) e ->
          preference_map e <> preference_map rel).
Proof.
  intros _ Tr It P0 P1. apply iteration_turn in It.
  assert (Chosen : forall m w f e',
            m = current_man g color_map s ->
            choice g preference_map compare color_map s = Some (m, w) ->
            s' = mk_state m f (put (has_proposed_map s) (m, w) true) e' ->
            rel = (m, w)
            /\ fst (best_relation g preference_map compare (men_iterator s')
                      (has_proposed_map s)) = Some rel).
  { intros m w f e' Em C Es. subst s'. simpl in *.
    unfold put in P1. destruct (edge_eqb (m, w) rel) eqn:E; [|congruence].
    apply edge_eqb_eq in E. subst rel. split; [reflexivity|].
    unfold choice in C. now rewrite <- Em in C. }
  assert (Spec : fst (best_relation g preference_map compare (men_iterator s')
                        (has_proposed_map s)) = Some rel).
  { destruct It as [L C | m w Em L C Fw | m w p Em L C Fw Eo Cmp Ex
                   | m w p Em L C Fw Eo Cmp].
    - simpl in P1. congruence.
    - eapply Chosen; eauto.
    - eapply Chosen; eauto.
    - eapply Chosen; eauto. }
  destruct (best_relation_spec g preference_map compare (men_iterator s')
              (has_proposed_map s) Tr rel Spec)
    as [l1 [l2 [El [Hok [_ [Hmax [Hfirst Hlast]]]]]]].
  exists l1, l2. auto.
Qed.

Lemma proposal_choice_witness :
  exists l1 l2,
    out_edges 3 Test.g = l1 ++ (3, 2) :: l2
    /\ viable Test.g 3 (fun _ => false) (3, 2)
    /\ (forall e, In e (out_edges 3 Test.g) ->
          viable Test.g 3 (fun _ => false) e ->
          ~ strictly_better Policy.greater (Test.map_preferences e)
              (Test.map_preferences (3, 2)))
    /\ ((forall x, Policy.greater x x = false) ->
        forall e, In e l1 -> viable Test.g 3 (fun _ => false) e ->
          Test.map_preferences e <> Test.map_preferences (3, 2))
    /\ ((forall x, Policy.greater x x = true) ->
        forall e, In e l2 -> viable Test.g 3 (fun _ => false) e ->
          Test.map_preferences e <> Test.map_preferences (3, 2)).
Proof.
  apply (proposal_choice Test.g Test.map_preferences Policy.greater
           (labels_of Test.store)
           (initial_state Test.g (fun _ => false))
           (mk_state 3
              (put_v (put_v (fun _ => true) 2 false) 3 false)
              (put (fun _ => false) (3, 2) true)
              (put (put (engaged_to_map
                           (initial_state Test.g (fun _ => false)))
                      (3, 2) true) (2, 3) true))
           (3, 2)).
  - exact (proj1 test_accepted).
  - exact greater_transitive.
  - vm_compute. reflexivity.
  - reflexivity.
  - reflexivity.
Defined.

(** C4 at a failing input: the graph is complete bipartite with two men
    (2, 3) and two women (0, 1), the partitioner accepts it, and the call
    returns after three turns with man 2 still marked free and holding no
    engaged relation, and woman 0 holding none either.  Man 2 was displaced
    by man 3 after the iterator had passed him. *)
Theorem displaced_man_stays_free :
  wf_graphb Displaced.g = true
  /\ fst (Bipartite.is_bipartite Displaced.g (st_color Displaced.store)) = true
  /\ complete_bipartite Displaced.g (labels_of Displaced.store) = true
  /\ is_black (labels_of Displaced.store 2) = true
  /\ is_black (labels_of Displaced.store 0) = false
  /\ exists s,
       snd (stable_marriage 3 Displaced.store Policy.greater)
       = Returned 3 s
       /\ free_map s 2 = true
       /\ engaged_person Displaced.g (engaged_to_map s) 2 = false
       /\ engaged_person Displaced.g (engaged_to_map s) 0 = false
       /\ engaged_to_map s (3, 1) = true.
Proof.
  repeat (split; [vm_compute; reflexivity|]).
  assert (H : returned_with
                (fun k s =>
                   (k =? 3) && free_map s 2
                   && negb (engaged_person Displaced.g (engaged_to_map s) 2)
                   && negb (engaged_person Displaced.g (engaged_to_map s) 0)
                   && engaged_to_map s (3, 1))
                (run 3 Displaced.store Policy.greater) = true)
    by (vm_compute; reflexivity).
  apply returned_with_true in H. destruct H as [k [s [R H]]].
  rewrite !andb_true_iff in H. destruct H as [[[[Ek F] E2] E0] E31].
  apply Nat.eqb_eq in Ek. subst k. apply negb_true_iff in E2, E0.
  exists s. rewrite stable_marriage_run. auto.
Qed.

(** C7 at a failing input: the policy is "the lower score wins".  After the
    first turn woman 0 is engaged with man 2.  In the second turn man 3
    proposes to woman 0; on woman 0's relations man 3 is strictly better
    than man 2 under the policy, yet the turn keeps the engagement of 0 with
    2 and leaves 3 free: line 228 compares the two scores with the built-in
    greater-than. *)
Theorem woman_ignores_policy :
  wf_graphb LowerIsBetter.g = true
  /\ fst (Bipartite.is_bipartite LowerIsBetter.g
           (st_color LowerIsBetter.store)) = true
  /\ exists s1 s2,
    after_turns LowerIsBetter.g LowerIsBetter.preference Policy.less
      (labels_of LowerIsBetter.store) 1
      (initial_state LowerIsBetter.g (fun _ => false)) = Some s1
    /\ iteration LowerIsBetter.g LowerIsBetter.preference Policy.less
         (labels_of LowerIsBetter.store) s1 = Continue s2
    /\ choice LowerIsBetter.g LowerIsBetter.preference Policy.less
         (labels_of LowerIsBetter.store) s1 = Some (3, 0)
    /\ free_map s1 0 = false
    /\ engaged_relation LowerIsBetter.g 0 (engaged_to_map s1) = Some (0, 2)
    /\ strictly_better Policy.less (LowerIsBetter.preference (0, 3))
         (LowerIsBetter.preference (0, 2))
    /\ has_proposed_map s2 (3, 0) = true
    /\ engaged_to_map s2 (0, 2) = true /\ engaged_to_map s2 (2, 0) = true
    /\ engaged_to_map s2 (0, 3) = false /\ engaged_to_map s2 (3, 0) = false
    /\ free_map s2 3 = true /\ free_map s2 2 = false.
Proof.
  split; [vm_compute; reflexivity|]. split; [vm_compute; reflexivity|].
  exists (match after_turns LowerIsBetter.g LowerIsBetter.preference
                  Policy.less (labels_of LowerIsBetter.store) 1
                  (initial_state LowerIsBetter.g (fun _ => false)) with
          | Some s => s
          | None => initial_state LowerIsBetter.g (fun _ => false)
          end).
  exists (match after_turns LowerIsBetter.g LowerIsBetter.preference
                  Policy.less (labels_of LowerIsBetter.store) 2
                  (initial_state LowerIsBetter.g (fun _ => false)) with
          | Some s => s
          | None => initial_state LowerIsBetter.g (fun _ => false)
          end).
  repeat split; vm_compute; reflexivity.
Qed.

(** C1 at a failing input: with the policy "the lower score wins" the call
    returns with man 3 engaged with woman 1 and woman 0 engaged with man 2.
    Man 3 strictly prefers woman 0 to woman 1, and woman 0 strictly prefers
    man 3 to man 2, both under the policy: the returned engagement is not
    stable. *)
Theorem lower_is_better_unstable :
  wf_graphb LowerIsBetter.g = true
  /\ fst (Bipartite.is_bipartite LowerIsBetter.g
           (st_color LowerIsBetter.store)) = true
  /\ transitive Policy.less
  /\ exists s,
       snd (stable_marriage 4 LowerIsBetter.store Policy.less)
       = Returned 4 s
       /\ is_black (labels_of LowerIsBetter.store 3) = true
       /\ blocking LowerIsBetter.g LowerIsBetter.preference
            (strictly_better Policy.less)
            (strictly_better Policy.less)
            (engaged_to_map s) 3 1 0
       /\ ~ stable LowerIsBetter.g LowerIsBetter.preference
              (strictly_better Policy.less)
              (strictly_better Policy.less)
              (labels_of LowerIsBetter.store) (engaged_to_map s).
Proof.
  split; [vm_compute; reflexivity|]. split; [vm_compute; reflexivity|].
  split; [exact less_transitive|].
  assert (H : returned_with
                (fun k s => (k =? 4) && engaged_to_map s (3, 1)
                            && engaged_to_map s (0, 2))
                (run 4 LowerIsBetter.store Policy.less) = true)
    by (vm_compute; reflexivity).
  apply returned_with_true in H. destruct H as [k [s [R H]]].
  rewrite !andb_true_iff in H. destruct H as [[Ek E31] E02].
  apply Nat.eqb_eq in Ek. subst k.
  assert (B : is_black (labels_of LowerIsBetter.store 3) = true)
    by (vm_compute; reflexivity).
  assert (Bl : blocking LowerIsBetter.g LowerIsBetter.preference
                 (strictly_better Policy.less)
                 (strictly_better Policy.less)
                 (engaged_to_map s) 3 1 0).
  { unfold blocking. repeat split; simpl; auto.
    exists 2. repeat split; simpl; auto. }
  exists s. rewrite stable_marriage_run.
  split; [exact R|]. split; [exact B|]. split; [exact Bl|].
  intros St. exact (St 3 1 0 B Bl).
Qed.

(** ** Further properties of the returned engagement *)

Section Returned.

Variable c : caller_store.
Variable compare : Z -> Z -> bool.

Hypothesis graph_wf : wf_graph (st_graph c).
Hypothesis accepted :
  fst (Bipartite.is_bipartite (st_graph c) (st_color c)) = true.

Let g := st_graph c.
Let s0 := initial_state g (st_engaged c).

Lemma labels_proper_of_accepted : proper g (labels_of c).
Proof. apply is_bipartite_proper; assumption. Qed.

(** With fuel for [iteration_bound] turns the call returns; the state it
    returns carries the maps of a state the loop went through. *)
Lemma returned_reachable fuel :
  iteration_bound g <= fuel ->
  exists k s s',
    snd (stable_marriage fuel c compare) = Returned k s
    /\ st_engaged (fst (stable_marriage fuel c compare)) = engaged_to_map s'
    /\ reachable g (st_preference c) compare (labels_of c) s0 s'
    /\ engaged_to_map s = engaged_to_map s'
    /\ free_map s = free_map s'
    /\ has_proposed_map s = has_proposed_map s'.
Proof.
  intros Hf.
  pose proof (sound_initial g (labels_of c) (st_engaged c)) as So0.
  pose proof (measure_initial g (labels_of c) (st_engaged c)) as M.
  destruct (main_loop_returns g (st_preference c) compare (labels_of c)
              labels_proper_of_accepted (iteration_bound g) s0
              (sound_symmetric _ _ _ So0) (sound_held _ _ _ So0) M)
    as [k [s [_ R]]].
  assert (R' : run fuel c compare = Returned k s).
  { unfold run. eapply main_loop_more_fuel; eauto. }
  destruct (main_loop_reaches _ _ _ _ _ _ _ _ R) as [s' [Rs F]].
  apply iteration_finished in F. destruct F as [_ Es].
  exists k, s, s'. rewrite stable_marriage_run.
  rewrite (stable_marriage_engaged _ _ _ _ _ R').
  subst s. simpl. repeat split; auto.
Qed.

End Returned.

(** X1: on a bipartite graph and with a transitive policy, the call
    returns an engagement in which no engaged man p, with partner r, has
    another woman r' (relations both ways) such that p strictly prefers r'
    to r under the policy while r' holds a partner of lower score than p.
    When the policy's strict preference always means a higher score
    (greater, greater-or-equal), this is stability under the policy on both
    sides. *)
Theorem engaged_pairs_stable (c : caller_store) (compare : Z -> Z -> bool)
  (fuel : nat) :
  wf_graph (st_graph c) ->
  bipartite (st_graph c) ->
  transitive compare ->
  iteration_bound (st_graph c) <= fuel ->
  (exists k s, snd (stable_marriage fuel c compare) = Returned k s)
  /\ stable (st_graph c) (st_preference c) (strictly_better compare)
       (fun a b => (b < a)%Z) (labels_of c)
       (st_engaged (fst (stable_marriage fuel c compare)))
  /\ ((forall a b, strictly_better compare a b -> (b < a)%Z) ->
      stable (st_graph c) (st_preference c) (strictly_better compare)
        (strictly_better compare) (labels_of c)
        (st_engaged (fst (stable_marriage fuel c compare)))).
Proof.
  intros WF Bip Tr Hf.
  pose proof (proj1 (bipartite_accepted _ (st_color c) WF) Bip) as Acc.
  destruct (returned_reachable c compare WF Acc fuel Hf)
    as [k [s [s' [R [E [Rs _]]]]]].
  pose proof (labels_proper_of_accepted c WF Acc) as P.
  destruct (stable_reachable (st_graph c) (st_preference c) compare
              (labels_of c) P _ s' Tr Rs
              (sound_initial _ _ _) (answered_initial _ _ _ _)
              (content_initial _ _ _ _ _))
    as [So [An Co]].
  pose proof (stable_state (st_graph c) (st_preference c) compare
                (labels_of c) s' So An Co) as St.
  rewrite E. split; [eauto|]. split; [exact St|].
  intros Follows p r r' Bp
    [Hr [Er [Nr [Hr' [Hb [Better [q [Hq [Eq Lt]]]]]]]]].
  apply (St p r r' Bp). unfold blocking. repeat split; auto; try apply Better.
  exists q. auto.
Qed.

Lemma greater_equal_follows_scores a b :
  strictly_better Test.greater_equal a b -> (b < a)%Z.
Proof.
  unfold strictly_better, Test.greater_equal. intros [H1 H2].
  apply Z.leb_le in H1. apply Z.leb_gt in H2. lia.
Defined.

Lemma engaged_pairs_stable_witness :
  (exists k s,
      snd (stable_marriage 26 Test.store Test.greater_equal) = Returned k s)
  /\ stable Test.g Test.map_preferences
       (strictly_better Test.greater_equal) (fun a b => (b < a)%Z)
       (labels_of Test.store)
       (st_engaged (fst (stable_marriage 26 Test.store Test.greater_equal)))
  /\ stable Test.g Test.map_preferences
       (strictly_better Test.greater_equal)
       (strictly_better Test.greater_equal) (labels_of Test.store)
       (st_engaged (fst (stable_marriage 26 Test.store Test.greater_equal))).
Proof.
  destruct (engaged_pairs_stable Test.store Test.greater_equal 26
              (proj1 test_accepted) test_bipartite
              greater_equal_transitive ltac:(vm_compute; lia))
    as [R [St Pol]].
  split; [exact R|]. split; [exact St|].
  exact (Pol greater_equal_follows_scores).
Defined.

(** X2: on a bipartite graph the returned engagement is a matching: nobody
    holds two engaged relations, and whoever holds one is not marked
    free. *)
Theorem engagement_is_matching (c : caller_store) (compare : Z -> Z -> bool)
  (fuel : nat) :
  wf_graph (st_graph c) ->
  bipartite (st_graph c) ->
  iteration_bound (st_graph c) <= fuel ->
  exists k s,
    snd (stable_marriage fuel c compare) = Returned k s
    /\ (forall a b b', In b (adjacent (st_graph c) a) ->
          In b' (adjacent (st_graph c) a) ->
          engaged_to_map s (a, b) = true ->
          engaged_to_map s (a, b') = true -> b = b')
    /\ (forall a b, In b (adjacent (st_graph c) a) ->
          engaged_to_map s (a, b) = true -> free_map s a = false).
Proof.
  intros WF Bip Hf.
  pose proof (proj1 (bipartite_accepted _ (st_color c) WF) Bip) as Acc.
  destruct (returned_reachable c compare WF Acc fuel Hf)
    as [k [s [s' [R [_ [Rs [Ee [Ef _]]]]]]]].
  pose proof (labels_proper_of_accepted c WF Acc) as P.
  pose proof (sound_reachable (st_graph c) (st_preference c) compare
                (labels_of c) P _ s' Rs (sound_initial _ _ _)) as So.
  exists k, s. split; [exact R|]. rewrite Ee, Ef. split.
  - apply (sound_monogamous _ _ _ So).
  - apply (sound_taken _ _ _ So).
Qed.

Lemma engagement_is_matching_witness :
  exists k s,
    snd (stable_marriage 26 Test.store Test.greater_equal) = Returned k s
    /\ (forall a b b', In b (adjacent Test.g a) ->
          In b' (adjacent Test.g a) ->
          engaged_to_map s (a, b) = true ->
          engaged_to_map s (a, b') = true -> b = b')
    /\ (forall a b, In b (adjacent Test.g a) ->
          engaged_to_map s (a, b) = true -> free_map s a = false).
Proof.
  apply (engagement_is_matching Test.store Test.greater_equal 26).
  - exact (proj1 test_accepted).
  - exact test_bipartite.
  - vm_compute. lia.
Defined.

(** X3: the iterator over the persons only moves forward: along the turns
    of the loop [men_iterator] never decreases, and the man who takes a turn
    is never before it.  A man who is made free again by a displacement
    while the iterator is past him therefore takes no further turn. *)
Theorem iterator_never_goes_back (g : Graph) (preference_map : edge -> Z)
  (compare : Z -> Z -> bool) (color_map : vertex -> default_color_type)
  (s s' : state) :
  reachable g preference_map compare color_map s s' ->
  men_iterator s <= men_iterator s'
  /\ men_iterator s' <= current_man g color_map s'.
Proof.
  intros R. split.
  - induction R as [|t t' R IH T]; [lia|].
    destruct (current_man_spec g color_map t) as [Lo _].
    destruct T; simpl; lia.
  - apply current_man_spec.
Qed.

Lemma iterator_never_goes_back_witness :
  men_iterator (initial_state Displaced.g (fun _ => false))
  <= men_iterator
       (mk_state 2 (put_v (put_v (fun _ => true) 1 false) 2 false)
          (put (fun _ => false) (2, 1) true)
          (put (put (engaged_to_map
                       (initial_state Displaced.g (fun _ => false)))
                  (2, 1) true) (1, 2) true))
  /\ men_iterator
       (mk_state 2 (put_v (put_v (fun _ => true) 1 false) 2 false)
          (put (fun _ => false) (2, 1) true)
          (put (put (engaged_to_map
                       (initial_state Displaced.g (fun _ => false)))
                  (2, 1) true) (1, 2) true))
     <= current_man Displaced.g (labels_of Displaced.store)
          (mk_state 2 (put_v (put_v (fun _ => true) 1 false) 2 false)
             (put (fun _ => false) (2, 1) true)
             (put (put (engaged_to_map
                          (initial_state Displaced.g (fun _ => false)))
                     (2, 1) true) (1, 2) true)).
Proof.
  apply (iterator_never_goes_back Displaced.g Displaced.preference
           Policy.greater (labels_of Displaced.store)).
  eapply reachable_turn; [apply reachable_start|].
  apply iteration_turn. vm_compute. reflexivity.
Defined.

(** ** The threshold of the scan *)

Section Threshold.

Variable g : Graph.
Variable preference_map : edge -> Z.
Variable compare : Z -> Z -> bool.
Variable man : vertex.
Variable has_proposed : edge -> bool.

Let step := consider g preference_map compare man has_proposed.
Let ok := viable g man has_proposed.

Lemma scan_keeps_choice l : forall acc,
  fst acc <> None -> fst (fold_left step l acc) <> None.
Proof.
  induction l as [|e l IH]; intros acc H; simpl; [assumption|].
  apply IH.
  destruct (consider_cases g preference_map compare man has_proposed acc e)
    as [[_ [_ Hs]] | [_ Hs]]; fold step in Hs; rewrite Hs;
    [discriminate|assumption].
Qed.

Lemma scan_nothing l : forall acc,
  fst acc = None ->
  (fst (fold_left step l acc) = None
   <-> forall e, In e l -> ok e ->
         compare (preference_map e) (snd acc) = false).
Proof.
  induction l as [|e l IH]; intros acc H; simpl.
  - split; [intros _ e []|auto].
  - destruct (consider_cases g preference_map compare man has_proposed acc e)
      as [[He [Hc Hs]] | [Hn Hs]]; fold step in Hs;
      fold ok in He || fold ok in Hn; rewrite Hs.
    + split.
      * intros F. exfalso.
        apply (scan_keeps_choice l (Some e, preference_map e));
          [discriminate|exact F].
      * intros A. rewrite (A e (or_introl eq_refl) He) in Hc. discriminate.
    + rewrite (IH acc H). split.
      * intros A e' [<- | Hin] He'; auto.
      * intros A e' Hin He'. apply A; auto.
Qed.

(** Without any viable relation that passes the policy against 0 the scan
    chooses nothing, and only then. *)
Lemma best_relation_none :
  fst (best_relation g preference_map compare man has_proposed) = None
  <-> forall e, In e (out_edges man g) -> ok e ->
        compare (preference_map e) 0%Z = false.
Proof. unfold best_relation. fold step. now apply scan_nothing. Qed.

Hypothesis compare_trans : transitive compare.

Let above (acc : option edge * Z) : Prop :=
  match fst acc with
  | None => snd acc = 0%Z
  | Some _ => compare (snd acc) 0%Z = true
  end.

Lemma scan_above l : forall acc, above acc -> above (fold_left step l acc).
Proof.
  induction l as [|e l IH]; intros acc H; simpl; [assumption|].
  apply IH.
  destruct (consider_cases g preference_map compare man has_proposed acc e)
    as [[_ [Hc Hs]] | [_ Hs]]; fold step in Hs; rewrite Hs; [|assumption].
  unfold above in *. simpl. destruct (fst acc).
  - eapply compare_trans; eauto.
  - now rewrite H in Hc.
Qed.

Lemma best_relation_above rel :
  fst (best_relation g preference_map compare man has_proposed) = Some rel ->
  compare (preference_map rel) 0%Z = true.
Proof.
  intros H.
  destruct (best_relation_spec g preference_map compare man has_proposed
              compare_trans rel H) as [l1 [l2 [_ [_ [Es _]]]]].
  pose proof (scan_above (out_edges man g) (None, 0%Z) eq_refl) as A.
  unfold above in A. fold step in H. unfold best_relation in H, Es.
  fold step in H, Es. rewrite H, Es in A. exact A.
Qed.

End Threshold.

(** ** What the turns do to the proposals *)

Section Proposals.

Variable g : Graph.
Variable preference_map : edge -> Z.
Variable compare : Z -> Z -> bool.
Variable color_map : vertex -> default_color_type.

Local Abbreviation turn := (turn g preference_map compare color_map).
Local Abbreviation reachable := (reachable g preference_map compare color_map).
Local Abbreviation current_man := (current_man g color_map).
Local Abbreviation choice := (choice g preference_map compare color_map).
Local Abbreviation wooed := (wooed g color_map).
Local Abbreviation beats_zero := (beats_zero preference_map compare).
Local Abbreviation descending := (descending g preference_map compare).
Local Abbreviation courted := (courted g).

(** The man who proposes and the relation he proposes on, for any labels. *)
Lemma chosen_facts s m w :
  m = current_man s -> m < num_vertices g -> choice s = Some (m, w) ->
  is_black (color_map m) = true /\ free_map s m = true
  /\ In w (adjacent g m) /\ In m (adjacent g w)
  /\ has_proposed_map s (m, w) = false.
Proof.
  intros Em L C.
  destruct (current_man_spec g color_map s) as [_ H].
  rewrite <- Em in H. destruct (H L) as [B F].
  destruct (choice_found _ _ _ _ _ _ C) as [_ [Hw [Hp Hm]]].
  simpl in Hw, Hm. rewrite <- Em in Hw, Hm. auto.
Qed.

(** What a turn does to the has-proposed flags: nothing, or it sets the
    flag of the relation chosen by the current man. *)
Lemma turn_proposes s s' :
  turn s s' ->
  has_proposed_map s' = has_proposed_map s
  \/ exists m w,
       m = current_man s /\ m < num_vertices g /\ choice s = Some (m, w)
       /\ has_proposed_map s' = put (has_proposed_map s) (m, w) true.
Proof.
  intros T. destruct T as [L C | m w Em L C Fw | m w p Em L C Fw Eo Cmp Ex
                          | m w p Em L C Fw Eo Cmp]; simpl;
    [left; reflexivity| right; exists m, w; auto ..].
Qed.

Lemma wooed_initial engaged0 : wooed (initial_state g engaged0).
Proof. intros m w H. simpl in H. discriminate. Qed.

Lemma wooed_turn s s' : turn s s' -> wooed s -> wooed s'.
Proof.
  intros T W. destruct (turn_proposes _ _ T) as [E | [m [w [Em [L [C E]]]]]];
    intros a b P; rewrite E in P; [now apply W|].
  unfold put in P. destruct (edge_eqb (m, w) (a, b)) eqn:Eq.
  - apply edge_eqb_eq in Eq. inversion Eq; subst a b.
    destruct (chosen_facts _ _ _ Em L C) as [B [_ [Hw [Hm _]]]]. auto.
  - now apply W.
Qed.

Lemma wooed_reachable s s' : reachable s s' -> wooed s -> wooed s'.
Proof. intros R H. induction R; [assumption|]. eapply wooed_turn; eauto. Qed.

Lemma beats_zero_initial engaged0 : beats_zero (initial_state g engaged0).
Proof. intros e H. simpl in H. discriminate. Qed.

Lemma beats_zero_turn s s' :
  transitive compare -> turn s s' -> beats_zero s -> beats_zero s'.
Proof.
  intros Tr T W. destruct (turn_proposes _ _ T) as [E | [m [w [Em [L [C E]]]]]];
    intros e P; rewrite E in P; [now apply W|].
  unfold put in P. destruct (edge_eqb (m, w) e) eqn:Eq.
  - apply edge_eqb_eq in Eq. subst e.
    rewrite choice_eq in C. rewrite <- Em in C.
    eapply best_relation_above; eauto.
  - now apply W.
Qed.

Lemma beats_zero_reachable s s' :
  transitive compare -> reachable s s' -> beats_zero s -> beats_zero s'.
Proof.
  intros Tr R H. induction R; [assumption|]. eapply beats_zero_turn; eauto.
Qed.

Lemma descending_initial engaged0 : descending (initial_state g engaged0).
Proof. intros m w w' H. simpl in H. discriminate. Qed.

Lemma descending_turn s s' :
  transitive compare -> turn s s' -> descending s -> descending s'.
Proof.
  intros Tr T D.
  destruct (turn_proposes _ _ T) as [E | [m0 [w0 [Em [L [C E]]]]]];
    intros m w w' P Hw' Hb P'; rewrite E in P, P'; [now apply (D m w w')|].
  assert (P0 : has_proposed_map s (m, w') = false).
  { unfold put in P'. destruct (edge_eqb _ _); [discriminate|assumption]. }
  unfold put in P. destruct (edge_eqb (m0, w0) (m, w)) eqn:Eq.
  - apply edge_eqb_eq in Eq. inversion Eq; subst m w.
    rewrite choice_eq in C. rewrite <- Em in C.
    destruct (best_relation_spec g preference_map compare m0
                (has_proposed_map s) Tr (m0, w0) C)
      as [l1 [l2 [_ [_ [_ [Hmax _]]]]]].
    apply Hmax.
    + apply in_out_edges. auto.
    + split; [assumption|]. simpl. now apply edge_exists_In.
  - now apply (D m w w').
Qed.

Lemma descending_reachable s s' :
  transitive compare -> reachable s s' -> descending s -> descending s'.
Proof.
  intros Tr R H. induction R; [assumption|]. eapply descending_turn; eauto.
Qed.

Lemma courted_initial engaged0 : courted (initial_state g engaged0).
Proof.
  intros a b Hin E. rewrite initial_engaged_false in E by assumption.
  discriminate.
Qed.

Lemma courted_turn s s' : turn s s' -> courted s -> courted s'.
Proof.
  intros T Co.
  assert (Keep : forall e a b, In b (adjacent g a) ->
            engaged_to_map s (a, b) = true ->
            put (has_proposed_map s) e true (a, b) = true
            \/ put (has_proposed_map s) e true (b, a) = true).
  { intros e a b Hin E. unfold put.
    destruct (Co a b Hin E) as [P | P]; [left|right];
      destruct (edge_eqb e _); auto. }
  destruct T as [L C | m w Em L C Fw | m w p Em L C Fw Eo Cmp Ex
                 | m w p Em L C Fw Eo Cmp]; try exact Co;
    intros a b Hin E; simpl in *.
  - unfold put in E at 1 2. edge_cases; edge_facts;
      try (left; apply put_same); try (right; apply put_same); auto.
  - unfold put in E at 1 2 3 4. edge_cases; edge_facts; try discriminate;
      try (left; apply put_same); try (right; apply put_same); auto.
  - auto.
Qed.

Lemma courted_reachable s s' : reachable s s' -> courted s -> courted s'.
Proof. intros R H. induction R; [assumption|]. eapply courted_turn; eauto. Qed.

End Proposals.

(** ** Women and the men taken out, on a proper labelling *)

Section Women.

Variable g : Graph.
Variable preference_map : edge -> Z.
Variable compare : Z -> Z -> bool.
Variable color_map : vertex -> default_color_type.

Hypothesis labels_proper : proper g color_map.

Local Abbreviation turn := (turn g preference_map compare color_map).
Local Abbreviation reachable := (reachable g preference_map compare color_map).
Local Abbreviation current_man := (current_man g color_map).
Local Abbreviation choice := (choice g preference_map compare color_map).
Local Abbreviation sound := (sound g color_map).
Local Abbreviation answered := (answered g preference_map color_map).
Local Abbreviation idle := (idle g color_map).
Local Abbreviation spent := (spent g preference_map compare color_map).
Local Abbreviation settled := (settled g preference_map compare color_map).

(** A woman who holds a partner keeps him through the turn, or holds a
    partner of strictly higher score after it. *)
Lemma trade_up_turn s s' w q :
  turn s s' -> sound s ->
  is_black (color_map w) = false -> In q (adjacent g w) ->
  engaged_to_map s (w, q) = true ->
  exists q', In q' (adjacent g w) /\ engaged_to_map s' (w, q') = true
    /\ (q' = q \/ (preference_map (w, q) < preference_map (w, q'))%Z).
Proof.
  intros T So Bw Hq E.
  destruct T as [L C | m0 w0 Em L C Fw | m0 w0 p Em L C Fw Eo Cmp Ex
                 | m0 w0 p Em L C Fw Eo Cmp]; simpl.
  - exists q. auto.
  - exists q. split; [assumption|]. split; [|auto].
    unfold put. edge_cases; auto.
  - destruct (turn_facts g preference_map compare color_map labels_proper
                _ _ _ Em L C) as [B [F [Hw [Hm [Bw0 _]]]]].
    destruct (engaged_relation_found _ _ _ _ Eo) as [_ [Hp Ep]].
    simpl in Hp.
    pose proof (black_partner g color_map labels_proper _ _ Bw0 Hp) as Bp.
    assert (p <> m0) by (intros ->; lia).
    assert (m0 <> w0) by congruence.
    destruct (Nat.eq_dec w w0) as [-> | Nw].
    + pose proof (sound_monogamous _ _ _ So _ _ _ Hq Hp E Ep). subst q.
      exists m0. split; [assumption|]. split; [|auto].
      unfold put. edge_cases; edge_facts; auto; congruence.
    + exists q. split; [assumption|]. split; [|auto].
      unfold put. edge_cases; edge_facts; auto; congruence.
  - exists q. auto.
Qed.

Lemma trade_up_reachable s s' :
  reachable s s' -> sound s ->
  forall w q, is_black (color_map w) = false -> In q (adjacent g w) ->
  engaged_to_map s (w, q) = true ->
  exists q', In q' (adjacent g w) /\ engaged_to_map s' (w, q') = true
    /\ (q' = q \/ (preference_map (w, q) < preference_map (w, q'))%Z).
Proof.
  intros R So. induction R as [|t t' R IH T]; intros w q Bw Hq E.
  - exists q. auto.
  - destruct (IH w q Bw Hq E) as [q1 [Hq1 [E1 Le1]]].
    pose proof (sound_reachable g preference_map compare color_map
                  labels_proper _ _ R So) as Sot.
    destruct (trade_up_turn _ _ _ _ T Sot Bw Hq1 E1) as [q2 [Hq2 [E2 Le2]]].
    exists q2. split; [assumption|]. split; [assumption|].
    destruct Le1 as [-> | Lt1], Le2 as [-> | Lt2]; auto. right. lia.
Qed.

Lemma answered_reachable s s' :
  reachable s s' -> sound s -> answered s -> sound s' /\ answered s'.
Proof.
  intros R So An. induction R as [|t t' R IH T]; [auto|].
  destruct IH as [So' An']. split.
  - eapply sound_turn; eauto.
  - eapply answered_turn; eauto.
Qed.

(** The partner a woman holds has proposed to her, and no man who has
    proposed to her has a higher score with her. *)
Lemma best_suitor s w q :
  sound s -> answered s -> wooed g color_map s -> courted g s ->
  is_black (color_map w) = false -> In q (adjacent g w) ->
  engaged_to_map s (w, q) = true ->
  has_proposed_map s (q, w) = true
  /\ forall m, has_proposed_map s (m, w) = true ->
       (preference_map (w, m) <= preference_map (w, q))%Z.
Proof.
  intros So An Wo Co Bw Hq E. split.
  - destruct (Co _ _ Hq E) as [P | P]; [|assumption].
    destruct (Wo _ _ P) as [B _]. congruence.
  - intros m P. destruct (Wo _ _ P) as [Bm [Hw Hm]].
    destruct (An m w Bm Hw Hm P) as [q' [Hq' [E' Le]]].
    pose proof (sound_monogamous _ _ _ So _ _ _ Hq Hq' E E'). subst q'.
    exact Le.
Qed.

(** A woman who is still free has not been proposed to. *)
Lemma free_unasked s w m :
  sound s -> answered s -> wooed g color_map s ->
  free_map s w = true -> has_proposed_map s (m, w) = false.
Proof.
  intros So An Wo F.
  destruct (has_proposed_map s (m, w)) eqn:P; [|reflexivity].
  destruct (Wo _ _ P) as [Bm [Hw Hm]].
  destruct (An m w Bm Hw Hm P) as [q [Hq [E _]]].
  pose proof (sound_taken _ _ _ So _ _ Hq E). congruence.
Qed.

(** *** Men taken out of the game *)

Lemma spent_turn s s' m :
  turn s s' -> sound s -> spent s m -> spent s' m.
Proof.
  intros T So [I Sp]. split.
  - eapply idle_turn; eauto. apply (sound_symmetric _ _ _ So).
  - destruct I as [_ [F _]].
    destruct (turn_proposes g preference_map compare color_map _ _ T)
      as [E | [m0 [w0 [Em [L [C E]]]]]]; rewrite E; [exact Sp|].
    destruct (chosen_facts g preference_map compare color_map _ _ _ Em L C)
      as [_ [F0 _]].
    assert (m0 <> m) by congruence.
    intros w Hw Hm P. apply Sp; auto.
    unfold put in P. edge_cases; edge_facts; auto; congruence.
Qed.

Lemma exhausted_spent s :
  sound s -> current_man s < num_vertices g -> choice s = None ->
  spent (mk_state (current_man s) (put_v (free_map s) (current_man s) false)
           (has_proposed_map s) (engaged_to_map s)) (current_man s).
Proof.
  intros So L C. split.
  - apply exhausted_idle; assumption.
  - simpl. intros w Hw Hm P. rewrite choice_eq in C.
    apply (proj1 (best_relation_none g preference_map compare _ _) C (_, w)).
    + apply in_out_edges. auto.
    + split; [assumption|]. simpl. now apply edge_exists_In.
Qed.

Lemma settled_initial engaged0 : settled (initial_state g engaged0).
Proof. intros m _ F. simpl in F. discriminate. Qed.

Lemma settled_turn s s' : turn s s' -> sound s -> settled s -> settled s'.
Proof.
  intros T So Se.
  assert (Sp : forall m, spent s m -> spent s' m)
    by (intros m; now apply spent_turn).
  destruct T as [L C | m0 w0 Em L C Fw | m0 w0 p Em L C Fw Eo Cmp Ex
                 | m0 w0 p Em L C Fw Eo Cmp]; intros m Bm Fm; simpl in *.
  - destruct (Nat.eq_dec m (current_man s)) as [-> | N].
    + right. now apply exhausted_spent.
    + unfold put_v in Fm. vertex_cases; [congruence|].
      destruct (Se m Bm Fm) as [Eng | S]; auto.
  - destruct (turn_facts g preference_map compare color_map labels_proper
                _ _ _ Em L C) as [B [F [Hw [Hm [Bw0 _]]]]].
    destruct (Nat.eq_dec m m0) as [-> | N].
    + left. exists w0. split; [assumption|].
      unfold put. edge_cases; edge_facts; auto; congruence.
    + unfold put_v in Fm. vertex_cases; try congruence.
      destruct (Se m Bm Fm) as [[w [Hin E]] | S]; auto.
      left. exists w. split; [assumption|]. unfold put. edge_cases; auto.
  - destruct (turn_facts g preference_map compare color_map labels_proper
                _ _ _ Em L C) as [B [F [Hw [Hm [Bw0 _]]]]].
    assert (p <> m0) by (intros ->; lia).
    assert (m0 <> w0) by congruence.
    destruct (Nat.eq_dec m m0) as [-> | N].
    + left. exists w0. split; [assumption|].
      unfold put. edge_cases; edge_facts; auto; congruence.
    + unfold put_v in Fm. vertex_cases; try congruence.
      destruct (Se m Bm Fm) as [[w [Hin E]] | S]; auto.
      left. exists w. split; [assumption|].
      unfold put. edge_cases; edge_facts; auto; congruence.
  - destruct (Se m Bm Fm) as [Eng | S]; auto.
Qed.

Lemma settled_reachable s s' :
  reachable s s' -> sound s -> settled s -> settled s'.
Proof.
  intros R So Se. induction R as [|t t' R IH T]; [assumption|].
  eapply settled_turn; eauto.
  eapply sound_reachable; eauto.
Qed.

End Women.

(** ** Two runs side by side *)

Section TwoRuns.

Variable g : Graph.
Variable preference_map : edge -> Z.
Variable compare : Z -> Z -> bool.
Variables color_map color_map' : vertex -> default_color_type.

Hypothesis labels_equal : forall v, color_map v = color_map' v.

Lemma next_free_man_same r free free' :
  (forall v, free v = free' v) ->
  forall i,
    next_free_man color_map r i free = next_free_man color_map' r i free'.
Proof.
  intros Ef. induction r as [|r IH]; intros i; simpl; [reflexivity|].
  rewrite <- labels_equal, <- Ef, IH. reflexivity.
Qed.

Lemma best_relation_same man p p' :
  (forall e, p e = p' e) ->
  best_relation g preference_map compare man p
  = best_relation g preference_map compare man p'.
Proof.
  intros Ep. unfold best_relation. generalize (None : option edge, 0%Z).
  induction (out_edges man g) as [|e l IH]; intros acc; simpl;
    [reflexivity|].
  rewrite IH. unfold consider. now rewrite Ep.
Qed.

Lemma engaged_relation_same w e e' :
  (forall a b, In b (adjacent g a) -> e (a, b) = e' (a, b)) ->
  engaged_relation g w e = engaged_relation g w e'.
Proof.
  intros Ee. unfold engaged_relation, out_edges.
  assert (H : forall l, (forall b, In b l -> In b (adjacent g w)) ->
            find e (map (fun v => (w, v)) l)
            = find e' (map (fun v => (w, v)) l)).
  { induction l as [|b l IH]; intros Hl; simpl; [reflexivity|].
    rewrite (Ee w b) by (apply Hl; now left).
    rewrite IH by (intros b' Hb'; apply Hl; now right). reflexivity. }
  apply H. auto.
Qed.

Lemma put_same_on {A} (P : edge -> Prop) (m m' : edge -> A) k x :
  (forall e, P e -> m e = m' e) ->
  forall e, P e -> put m k x e = put m' k x e.
Proof. intros H e He. unfold put. destruct (edge_eqb k e); auto. Qed.

Lemma put_v_same_on {A} (m m' : vertex -> A) k x :
  (forall v, m v = m' v) -> forall v, put_v m k x v = put_v m' k x v.
Proof. intros H v. unfold put_v. destruct (Nat.eqb k v); auto. Qed.

Lemma iteration_same s t :
  same g s t ->
  same_outcome g (iteration g preference_map compare color_map s)
    (iteration g preference_map compare color_map' t).
Proof.
  destruct s as [i f p e], t as [i' f' p' e'].
  intros [Ei [Ef [Ep Ee]]]. simpl in Ei, Ef, Ep, Ee. subst i'.
  unfold iteration. simpl.
  rewrite <- (next_free_man_same (num_vertices g - i) f f' Ef i).
  set (man := next_free_man color_map (num_vertices g - i) i f).
  rewrite <- (best_relation_same man p p' Ep).
  assert (Pp : forall k e0, put p k true e0 = put p' k true e0).
  { intros k e0. apply (put_same_on (fun _ => True)); auto. }
  assert (Pe : forall (m m' : edge -> bool) k x,
            (forall a b, In b (adjacent g a) -> m (a, b) = m' (a, b)) ->
            forall a b, In b (adjacent g a) ->
              put m k x (a, b) = put m' k x (a, b)).
  { intros m m' k x H a b Hb.
    apply (put_same_on (fun e0 => In (snd e0) (adjacent g (fst e0))));
      [|exact Hb].
    intros [a0 b0] H0. now apply H. }
  assert (Done : forall f1 f1' p1 p1' e1 e1',
            (forall v, f1 v = f1' v) -> (forall x, p1 x = p1' x) ->
            (forall a b, In b (adjacent g a) -> e1 (a, b) = e1' (a, b)) ->
            same g (mk_state man f1 p1 e1) (mk_state man f1' p1' e1'))
    by (intros; repeat split; auto).
  destruct (num_vertices g <=? man).
  - simpl. now apply Done.
  - destruct (fst (best_relation g preference_map compare man p))
      as [rel|].
    + rewrite <- Ef. destruct (f (target rel)).
      * simpl. apply Done;
          [repeat apply put_v_same_on; exact Ef | intros; apply Pp
          | repeat apply Pe; exact Ee].
      * rewrite <- (engaged_relation_same (target rel) e e' Ee).
        destruct (engaged_relation g (target rel) e) as [old|];
          [|exact I].
        destruct (_ <? _)%Z.
        { destruct (edge_exists (target old) (target rel) g); [|exact I].
          simpl. apply Done;
            [repeat apply put_v_same_on; exact Ef | intros; apply Pp
            | repeat apply Pe; exact Ee]. }
        { simpl. apply Done; [exact Ef | intros; apply Pp | exact Ee]. }
    + simpl. apply Done;
        [repeat apply put_v_same_on; exact Ef | exact Ep | exact Ee].
Qed.

Lemma main_loop_same fuel : forall s t,
  same g s t ->
  agree g (main_loop g preference_map compare color_map fuel s)
    (main_loop g preference_map compare color_map' fuel t).
Proof.
  induction fuel as [|fuel IH]; intros s t H; simpl; [exact I|].
  pose proof (iteration_same s t H) as It.
  destruct (iteration g preference_map compare color_map s) as [a|a|],
    (iteration g preference_map compare color_map' t) as [b|b|];
    simpl in It; try contradiction; simpl; auto.
  specialize (IH a b It).
  destruct (main_loop g preference_map compare color_map fuel a),
    (main_loop g preference_map compare color_map' fuel b);
    simpl in IH; try contradiction; simpl; auto.
  destruct IH as [-> S]. auto.
Qed.

End TwoRuns.

Lemma initial_same g engaged0 engaged0' :
  same g (initial_state g engaged0) (initial_state g engaged0').
Proof.
  repeat split; auto. intros a b H.
  now rewrite !initial_engaged_false.
Qed.

Lemma run_agree fuel c c' compare :
  st_graph c' = st_graph c -> st_preference c' = st_preference c ->
  (forall v, labels_of c v = labels_of c' v) ->
  agree (st_graph c) (run fuel c compare) (run fuel c' compare).
Proof.
  intros Eg Ep El. unfold run. rewrite Eg, Ep.
  apply main_loop_same; [exact El|apply initial_same].
Qed.

(** The labels the call leaves are the ones a second call writes. *)
Lemma labels_again fuel c compare v :
  labels_of c v = labels_of (fst (stable_marriage fuel c compare)) v.
Proof.
  unfold labels_of, stable_marriage. simpl.
  unfold Bipartite.is_bipartite.
  destruct (Bipartite.consistent (st_graph c) (Bipartite.two_color _));
    simpl; [|reflexivity].
  destruct (v <? num_vertices (st_graph c)); reflexivity.
Qed.

(** ** Labels without a black person *)

Lemma next_free_man_none color_map r free : forall i,
  (forall v, i <= v < i + r -> is_black (color_map v) = false) ->
  next_free_man color_map r i free = i + r.
Proof.
  induction r as [|r IH]; intros i H; simpl; [lia|].
  rewrite (H i) by lia. simpl. rewrite IH; [lia|].
  intros v Hv. apply H. lia.
Qed.

Lemma next_free_man_first color_map r free v : forall i,
  is_black (color_map v) = true -> free v = true ->
  i <= v < i + r -> next_free_man color_map r i free <= v.
Proof.
  induction r as [|r IH]; intros i B F Hv; simpl; [lia|].
  destruct (negb (is_black (color_map i)) || negb (free i)) eqn:E; [|lia].
  destruct (Nat.eq_dec i v) as [-> | N].
  - rewrite B, F in E. discriminate.
  - apply IH; auto. lia.
Qed.

(** ** The partner read back *)

Lemma is_engaged_partner g engaged v u :
  (forall b b', In b (adjacent g v) -> In b' (adjacent g v) ->
     engaged (v, b) = true -> engaged (v, b') = true -> b = b') ->
  In u (adjacent g v) -> engaged (v, u) = true ->
  is_engaged v g engaged = (u, true).
Proof.
  intros Mo Hu E. unfold is_engaged.
  destruct (find _ _) as [rel|] eqn:F.
  - apply find_some in F. destruct F as [Hin Er].
    apply in_out_edges in Hin. destruct rel as [a b]. simpl in *.
    destruct Hin as [-> Hb]. now rewrite (Mo b u Hb Hu Er E).
  - pose proof (find_none _ _ F (v, u)) as N.
    rewrite E in N. discriminate N. apply in_out_edges. auto.
Qed.

(** ** The checks of the test *)

Lemma check_relation_spec map_engaged couples it :
  TestChecks.check_relation map_engaged couples it
  = Bool.eqb (map_engaged it) (TestChecks.in_couples couples it).
Proof.
  unfold TestChecks.check_relation.
  induction couples as [|[c0 c1] rest IH]; simpl.
  - destruct (map_engaged it); reflexivity.
  - destruct (edge_eqb it (c0, c1)) eqn:E1.
    + apply edge_eqb_eq in E1. subst it. simpl.
      destruct (map_engaged (c0, c1)); reflexivity.
    + destruct (edge_eqb it (c1, c0)) eqn:E2.
      * apply edge_eqb_eq in E2. subst it. simpl.
        destruct (map_engaged (c1, c0)); reflexivity.
      * simpl. exact IH.
Qed.

(** ** The state returned and the states gone through *)

Lemma returned_maps fuel c compare k s :
  run fuel c compare = Returned k s ->
  exists s',
    reachable (st_graph c) (st_preference c) compare (labels_of c)
      (initial_state (st_graph c) (st_engaged c)) s'
    /\ engaged_to_map s = engaged_to_map s'
    /\ free_map s = free_map s'
    /\ has_proposed_map s = has_proposed_map s'.
Proof.
  unfold run. intros R.
  destruct (main_loop_reaches _ _ _ _ _ _ _ _ R) as [s' [Rs F]].
  apply iteration_finished in F. destruct F as [_ Es].
  exists s'. subst s. simpl. auto.
Qed.

Lemma iteration_proposes g preference_map compare color_map s s' rel :
  iteration g preference_map compare color_map s = Continue s' ->
  choice g preference_map compare color_map s = Some rel ->
  has_proposed_map s' rel = true.
Proof.
  intros It C. apply iteration_turn in It.
  destruct It as [L C' | m w Em L C' Fw | m w p Em L C' Fw Eo Cmp Ex
                  | m w p Em L C' Fw Eo Cmp]; rewrite C in C';
    [discriminate| | |]; inversion C'; subst rel; simpl; apply put_same.
Qed.

(** X4: the scan of a man's relations starts from the score 0.  His turn
    only takes him out of the game (he is marked not free, no flag of any
    relation changes) exactly when none of his relations that he has not
    proposed on and that have their reverse in the graph has a score the
    policy puts before 0. *)
Theorem nothing_beats_zero (g : Graph) (preference_map : edge -> Z)
  (compare : Z -> Z -> bool) (color_map : vertex -> default_color_type)
  (s : state) :
  current_man g color_map s < num_vertices g ->
  (forall w, In w (adjacent g (current_man g color_map s)) ->
     In (current_man g color_map s) (adjacent g w) ->
     has_proposed_map s (current_man g color_map s, w) = false ->
     compare (preference_map (current_man g color_map s, w)) 0%Z = false)
  <-> iteration g preference_map compare color_map s
      = Continue
          (mk_state (current_man g color_map s)
             (put_v (free_map s) (current_man g color_map s) false)
             (has_proposed_map s) (engaged_to_map s)).
Proof.
  intros L. split.
  - intros H.
    assert (C : fst (best_relation g preference_map compare
                       (current_man g color_map s) (has_proposed_map s))
                = None).
    { apply best_relation_none. intros [a w] Hin [P Ex].
      apply in_out_edges in Hin. simpl in *. destruct Hin as [-> Hw].
      apply edge_exists_In in Ex. now apply H. }
    unfold iteration. fold (current_man g color_map s).
    apply Nat.leb_gt in L. now rewrite L, C.
  - intros It w Hw Hm P.
    destruct (choice g preference_map compare color_map s) as [rel|] eqn:C.
    + pose proof (iteration_proposes _ _ _ _ _ _ _ It C) as P1.
      destruct (choice_found _ _ _ _ _ _ C) as [_ [_ [P0 _]]].
      simpl in P1. congruence.
    + rewrite choice_eq in C.
      apply (proj1 (best_relation_none g preference_map compare _ _) C
               (_, w)).
      * apply in_out_edges. auto.
      * split; [assumption|]. simpl. now apply edge_exists_In.
Qed.

Lemma nothing_beats_zero_witness :
  (forall w,
     In w (adjacent Displaced.g
             (current_man Displaced.g (labels_of Displaced.store)
                (initial_state Displaced.g (fun _ => false)))) ->
     In (current_man Displaced.g (labels_of Displaced.store)
           (initial_state Displaced.g (fun _ => false)))
       (adjacent Displaced.g w) ->
     has_proposed_map (initial_state Displaced.g (fun _ => false))
       (current_man Displaced.g (labels_of Displaced.store)
          (initial_state Displaced.g (fun _ => false)), w) = false ->
     Policy.greater 0%Z 0%Z = false)
  <-> iteration Displaced.g (fun _ => 0%Z) Policy.greater
        (labels_of Displaced.store)
        (initial_state Displaced.g (fun _ => false))
      = Continue
          (mk_state
             (current_man Displaced.g (labels_of Displaced.store)
                (initial_state Displaced.g (fun _ => false)))
             (put_v (free_map (initial_state Displaced.g (fun _ => false)))
                (current_man Displaced.g (labels_of Displaced.store)
                   (initial_state Displaced.g (fun _ => false))) false)
             (has_proposed_map (initial_state Displaced.g (fun _ => false)))
             (engaged_to_map (initial_state Displaced.g (fun _ => false)))).
Proof.
  apply (nothing_beats_zero Displaced.g (fun _ => 0%Z) Policy.greater
           (labels_of Displaced.store)
           (initial_state Displaced.g (fun _ => false))).
  vm_compute. lia.
Defined.

(** X5: the has-proposed flag is only ever set on a relation that leaves a
    black person and has its reverse in the graph (the note of lines
    122-123), and, the policy being transitive, whose score the policy puts
    before 0: a relation whose score does not pass the policy against 0 is
    never proposed on.  This holds in every state the loop goes through and
    in the state returned. *)
Theorem proposals_leave_men (c : caller_store) (compare : Z -> Z -> bool) :
  wf_graph (st_graph c) ->
  transitive compare ->
  (forall s,
     reachable (st_graph c) (st_preference c) compare (labels_of c)
       (initial_state (st_graph c) (st_engaged c)) s ->
     wooed (st_graph c) (labels_of c) s
     /\ beats_zero (st_preference c) compare s)
  /\ (forall fuel k s,
        snd (stable_marriage fuel c compare) = Returned k s ->
        wooed (st_graph c) (labels_of c) s
        /\ beats_zero (st_preference c) compare s).
Proof.
  intros _ Tr.
  assert (Inv : forall s,
            reachable (st_graph c) (st_preference c) compare (labels_of c)
              (initial_state (st_graph c) (st_engaged c)) s ->
            wooed (st_graph c) (labels_of c) s
            /\ beats_zero (st_preference c) compare s).
  { intros s R. split.
    - eapply wooed_reachable; [exact R|apply wooed_initial].
    - eapply beats_zero_reachable; [exact Tr|exact R|].
      apply beats_zero_initial with (g := st_graph c). }
  split; [exact Inv|].
  intros fuel k s R. rewrite stable_marriage_run in R.
  destruct (returned_maps _ _ _ _ _ R) as [s' [Rs [_ [_ Ep]]]].
  destruct (Inv s' Rs) as [W B]. unfold wooed, beats_zero.
  rewrite Ep. auto.
Qed.

Lemma proposals_leave_men_witness :
  (forall s,
     reachable Test.g Test.map_preferences Test.greater_equal
       (labels_of Test.store) (initial_state Test.g (fun _ => false)) s ->
     wooed Test.g (labels_of Test.store) s
     /\ beats_zero Test.map_preferences Test.greater_equal s)
  /\ (forall fuel k s,
        snd (stable_marriage fuel Test.store Test.greater_equal)
        = Returned k s ->
        wooed Test.g (labels_of Test.store) s
        /\ beats_zero Test.map_preferences Test.greater_equal s).
Proof.
  apply (proposals_leave_men Test.store Test.greater_equal).
  - exact (proj1 test_accepted).
  - exact greater_equal_transitive.
Defined.

(** X6: a man proposes in descending order of preference.  With a
    transitive policy, in every state the loop goes through and in the
    state returned, a relation a man has proposed on is never strictly
    worse, under the policy, than a relation of his that he has not proposed
    on and that has its reverse in the graph. *)
Theorem proposals_descend (c : caller_store) (compare : Z -> Z -> bool) :
  wf_graph (st_graph c) ->
  transitive compare ->
  (forall s,
     reachable (st_graph c) (st_preference c) compare (labels_of c)
       (initial_state (st_graph c) (st_engaged c)) s ->
     descending (st_graph c) (st_preference c) compare s)
  /\ (forall fuel k s,
        snd (stable_marriage fuel c compare) = Returned k s ->
        descending (st_graph c) (st_preference c) compare s).
Proof.
  intros _ Tr.
  assert (Inv : forall s,
            reachable (st_graph c) (st_preference c) compare (labels_of c)
              (initial_state (st_graph c) (st_engaged c)) s ->
            descending (st_graph c) (st_preference c) compare s).
  { intros s R.
    eapply descending_reachable; [exact Tr|exact R|].
    apply descending_initial. }
  split; [exact Inv|].
  intros fuel k s R. rewrite stable_marriage_run in R.
  destruct (returned_maps _ _ _ _ _ R) as [s' [Rs [_ [_ Ep]]]].
  pose proof (Inv s' Rs) as D. unfold descending. rewrite Ep. exact D.
Qed.

Lemma proposals_descend_witness :
  (forall s,
     reachable Test.g Test.map_preferences Test.greater_equal
       (labels_of Test.store) (initial_state Test.g (fun _ => false)) s ->
     descending Test.g Test.map_preferences Test.greater_equal s)
  /\ (forall fuel k s,
        snd (stable_marriage fuel Test.store Test.greater_equal)
        = Returned k s ->
        descending Test.g Test.map_preferences Test.greater_equal s).
Proof.
  apply (proposals_descend Test.store Test.greater_equal).
  - exact (proj1 test_accepted).
  - exact greater_equal_transitive.
Defined.

(** X7: on a bipartite graph, in every state the loop goes through, a woman
    is marked not free exactly when she holds an engaged relation; and a
    woman who holds a partner holds, in every later state, the same partner
    or one of strictly higher score: she is never free again, only trades
    up, and keeps her partner against a man of equal score. *)
Theorem woman_only_trades_up (c : caller_store) (compare : Z -> Z -> bool) :
  wf_graph (st_graph c) ->
  bipartite (st_graph c) ->
  (forall s w,
     reachable (st_graph c) (st_preference c) compare (labels_of c)
       (initial_state (st_graph c) (st_engaged c)) s ->
     is_black (labels_of c w) = false ->
     (free_map s w = false
      <-> exists u, In u (adjacent (st_graph c) w)
            /\ engaged_to_map s (w, u) = true))
  /\ (forall s s' w q,
        reachable (st_graph c) (st_preference c) compare (labels_of c)
          (initial_state (st_graph c) (st_engaged c)) s ->
        reachable (st_graph c) (st_preference c) compare (labels_of c) s s' ->
        is_black (labels_of c w) = false ->
        In q (adjacent (st_graph c) w) ->
        engaged_to_map s (w, q) = true ->
        exists q', In q' (adjacent (st_graph c) w)
          /\ engaged_to_map s' (w, q') = true
          /\ (q' = q
              \/ (st_preference c (w, q) < st_preference c (w, q'))%Z)).
Proof.
  intros WF Bip.
  pose proof (proj1 (bipartite_accepted _ (st_color c) WF) Bip) as Acc.
  pose proof (labels_proper_of_accepted c WF Acc) as P.
  assert (So : forall s,
            reachable (st_graph c) (st_preference c) compare (labels_of c)
              (initial_state (st_graph c) (st_engaged c)) s ->
            sound (st_graph c) (labels_of c) s).
  { intros s R.
    exact (sound_reachable (st_graph c) (st_preference c) compare
             (labels_of c) P _ s R (sound_initial _ _ _)). }
  split.
  - intros s w R Bw. specialize (So s R). split.
    + intros F. exact (sound_held _ _ _ So w Bw F).
    + intros [u [Hu E]]. exact (sound_taken _ _ _ So _ _ Hu E).
  - intros s s' w q R R' Bw Hq E.
    exact (trade_up_reachable (st_graph c) (st_preference c) compare
             (labels_of c) P s s' R' (So s R) w q Bw Hq E).
Qed.

Lemma woman_only_trades_up_witness :
  (forall s w,
     reachable Test.g Test.map_preferences Test.greater_equal
       (labels_of Test.store) (initial_state Test.g (fun _ => false)) s ->
     is_black (labels_of Test.store w) = false ->
     (free_map s w = false
      <-> exists u, In u (adjacent Test.g w)
            /\ engaged_to_map s (w, u) = true))
  /\ (forall s s' w q,
        reachable Test.g Test.map_preferences Test.greater_equal
          (labels_of Test.store) (initial_state Test.g (fun _ => false)) s ->
        reachable Test.g Test.map_preferences Test.greater_equal
          (labels_of Test.store) s s' ->
        is_black (labels_of Test.store w) = false ->
        In q (adjacent Test.g w) ->
        engaged_to_map s (w, q) = true ->
        exists q', In q' (adjacent Test.g w)
          /\ engaged_to_map s' (w, q') = true
          /\ (q' = q
              \/ (Test.map_preferences (w, q)
                  < Test.map_preferences (w, q'))%Z)).
Proof.
  apply (woman_only_trades_up Test.store Test.greater_equal).
  - exact (proj1 test_accepted).
  - exact test_bipartite.
Defined.

(** X8: on a bipartite graph, in the state returned, the partner a woman
    holds has proposed to her, and no man who has proposed to her has a
    higher score with her: she holds the best of her suitors.  A woman who
    is still free has not been proposed to. *)
Theorem woman_holds_best_suitor (c : caller_store)
  (compare : Z -> Z -> bool) (fuel : nat) :
  wf_graph (st_graph c) ->
  bipartite (st_graph c) ->
  iteration_bound (st_graph c) <= fuel ->
  exists k s,
    snd (stable_marriage fuel c compare) = Returned k s
    /\ (forall w q, is_black (labels_of c w) = false ->
          In q (adjacent (st_graph c) w) ->
          engaged_to_map s (w, q) = true ->
          has_proposed_map s (q, w) = true
          /\ forall m, has_proposed_map s (m, w) = true ->
               (st_preference c (w, m) <= st_preference c (w, q))%Z)
    /\ forall w m, free_map s w = true -> has_proposed_map s (m, w) = false.
Proof.
  intros WF Bip Hf.
  pose proof (proj1 (bipartite_accepted _ (st_color c) WF) Bip) as Acc.
  destruct (returned_reachable c compare WF Acc fuel Hf)
    as [k [s [s' [R [_ [Rs [Ee [Ef Ep]]]]]]]].
  pose proof (labels_proper_of_accepted c WF Acc) as P.
  destruct (answered_reachable (st_graph c) (st_preference c) compare
              (labels_of c) P _ s' Rs (sound_initial _ _ _)
              (answered_initial _ _ _ _)) as [So An].
  pose proof (wooed_reachable _ _ _ _ _ _ Rs
                (wooed_initial _ (labels_of c) _)) as Wo.
  pose proof (courted_reachable _ _ _ _ _ _ Rs (courted_initial _ _)) as Co.
  exists k, s. split; [exact R|]. rewrite Ee, Ef, Ep. split.
  - intros w q. apply best_suitor; assumption.
  - intros w m. eapply free_unasked; eauto.
Qed.

Lemma woman_holds_best_suitor_witness :
  exists k s,
    snd (stable_marriage 26 Test.store Test.greater_equal) = Returned k s
    /\ (forall w q, is_black (labels_of Test.store w) = false ->
          In q (adjacent Test.g w) ->
          engaged_to_map s (w, q) = true ->
          has_proposed_map s (q, w) = true
          /\ forall m, has_proposed_map s (m, w) = true ->
               (Test.map_preferences (w, m) <= Test.map_preferences (w, q))%Z)
    /\ forall w m, free_map s w = true -> has_proposed_map s (m, w) = false.
Proof.
  apply (woman_holds_best_suitor Test.store Test.greater_equal 26).
  - exact (proj1 test_accepted).
  - exact test_bipartite.
  - vm_compute. lia.
Defined.

(** X9: on a bipartite graph, in the state returned, a man who is marked
    not free is engaged, or holds no engaged relation and has no option
    left: each woman he has relations with, both ways, either holds a
    partner of a score at least as high as his and has been proposed to by
    him, or is joined to him by a relation whose score does not pass the
    policy against 0 (lines 255-260). *)
Theorem man_out_has_no_option (c : caller_store) (compare : Z -> Z -> bool)
  (fuel : nat) :
  wf_graph (st_graph c) ->
  bipartite (st_graph c) ->
  iteration_bound (st_graph c) <= fuel ->
  exists k s,
    snd (stable_marriage fuel c compare) = Returned k s
    /\ forall m, is_black (labels_of c m) = true -> free_map s m = false ->
         (exists w, In w (adjacent (st_graph c) m)
            /\ engaged_to_map s (m, w) = true)
         \/ ((forall w, In w (adjacent (st_graph c) m) ->
                engaged_to_map s (m, w) = false)
             /\ forall w, In w (adjacent (st_graph c) m) ->
                  In m (adjacent (st_graph c) w) ->
                  (has_proposed_map s (m, w) = true
                   /\ exists q, In q (adjacent (st_graph c) w)
                        /\ engaged_to_map s (w, q) = true
                        /\ (st_preference c (w, m)
                            <= st_preference c (w, q))%Z)
                  \/ (has_proposed_map s (m, w) = false
                      /\ compare (st_preference c (m, w)) 0%Z = false)).
Proof.
  intros WF Bip Hf.
  pose proof (proj1 (bipartite_accepted _ (st_color c) WF) Bip) as Acc.
  destruct (returned_reachable c compare WF Acc fuel Hf)
    as [k [s [s' [R [_ [Rs [Ee [Ef Ep]]]]]]]].
  pose proof (labels_proper_of_accepted c WF Acc) as P.
  destruct (answered_reachable (st_graph c) (st_preference c) compare
              (labels_of c) P _ s' Rs (sound_initial _ _ _)
              (answered_initial _ _ _ _)) as [So An].
  pose proof (settled_reachable (st_graph c) (st_preference c) compare
                (labels_of c) P _ s' Rs (sound_initial _ _ _)
                (settled_initial _ _ _ _ _)) as Se.
  exists k, s. split; [exact R|]. rewrite Ee, Ef, Ep.
  intros m Bm Fm. destruct (Se m Bm Fm) as [Eng | [[_ [_ Id]] Sp]];
    [left; exact Eng|right].
  split; [exact Id|]. intros w Hw Hm.
  destruct (has_proposed_map s' (m, w)) eqn:Pm.
  - left. split; [reflexivity|]. exact (An m w Bm Hw Hm Pm).
  - right. split; [reflexivity|]. now apply Sp.
Qed.

Lemma man_out_has_no_option_witness :
  exists k s,
    snd (stable_marriage 26 Test.store Test.greater_equal) = Returned k s
    /\ forall m, is_black (labels_of Test.store m) = true ->
         free_map s m = false ->
         (exists w, In w (adjacent Test.g m)
            /\ engaged_to_map s (m, w) = true)
         \/ ((forall w, In w (adjacent Test.g m) ->
                engaged_to_map s (m, w) = false)
             /\ forall w, In w (adjacent Test.g m) ->
                  In m (adjacent Test.g w) ->
                  (has_proposed_map s (m, w) = true
                   /\ exists q, In q (adjacent Test.g w)
                        /\ engaged_to_map s (w, q) = true
                        /\ (Test.map_preferences (w, m)
                            <= Test.map_preferences (w, q))%Z)
                  \/ (has_proposed_map s (m, w) = false
                      /\ Test.greater_equal (Test.map_preferences (m, w)) 0%Z
                         = false)).
Proof.
  apply (man_out_has_no_option Test.store Test.greater_equal 26).
  - exact (proj1 test_accepted).
  - exact test_bipartite.
  - vm_compute. lia.
Defined.

(** X10: on a bipartite graph, [is_engaged] on the engagement the call
    leaves reads back the partner: for an engaged relation from v to u it
    returns u for v and v for u. *)
Theorem partner_read_back (c : caller_store) (compare : Z -> Z -> bool)
  (fuel : nat) :
  wf_graph (st_graph c) ->
  bipartite (st_graph c) ->
  iteration_bound (st_graph c) <= fuel ->
  (exists k s, snd (stable_marriage fuel c compare) = Returned k s)
  /\ forall v u, In u (adjacent (st_graph c) v) ->
       st_engaged (fst (stable_marriage fuel c compare)) (v, u) = true ->
       is_engaged v (st_graph c)
         (st_engaged (fst (stable_marriage fuel c compare))) = (u, true)
       /\ is_engaged u (st_graph c)
            (st_engaged (fst (stable_marriage fuel c compare))) = (v, true).
Proof.
  intros WF Bip Hf.
  pose proof (proj1 (bipartite_accepted _ (st_color c) WF) Bip) as Acc.
  destruct (returned_reachable c compare WF Acc fuel Hf)
    as [k [s [s' [R [E [Rs _]]]]]].
  pose proof (labels_proper_of_accepted c WF Acc) as P.
  pose proof (sound_reachable (st_graph c) (st_preference c) compare
                (labels_of c) P _ s' Rs (sound_initial _ _ _)) as So.
  split; [eauto|]. rewrite E. intros v u Hu Ev.
  destruct (sound_symmetric _ _ _ So _ _ Hu Ev) as [Hv Eu].
  split; apply is_engaged_partner; auto; intros b b';
    apply (sound_monogamous _ _ _ So).
Qed.

Lemma partner_read_back_witness :
  (exists k s,
      snd (stable_marriage 26 Test.store Test.greater_equal) = Returned k s)
  /\ forall v u, In u (adjacent Test.g v) ->
       st_engaged (fst (stable_marriage 26 Test.store Test.greater_equal))
         (v, u) = true ->
       is_engaged v Test.g
         (st_engaged (fst (stable_marriage 26 Test.store Test.greater_equal)))
       = (u, true)
       /\ is_engaged u Test.g
            (st_engaged
               (fst (stable_marriage 26 Test.store Test.greater_equal)))
          = (v, true).
Proof.
  apply (partner_read_back Test.store Test.greater_equal 26).
  - exact (proj1 test_accepted).
  - exact test_bipartite.
  - vm_compute. lia.
Defined.

(** X11: what the caller leaves in the engaged flags does not matter: two
    calls that differ only in the flags passed in take the same number of
    turns and end with the same flags on every relation, or end in the same
    way without returning. *)
Theorem caller_flags_ignored (fuel : nat) (c : caller_store)
  (compare : Z -> Z -> bool) (engaged0 : edge -> bool) :
  agree (st_graph c) (snd (stable_marriage fuel c compare))
    (snd (stable_marriage fuel (with_engaged c engaged0) compare)).
Proof.
  rewrite !stable_marriage_run. apply run_agree; reflexivity.
Qed.

(** X12: a second call on what the first call left gives the same result:
    the same number of turns, the same engaged flag on every relation, the
    same labels. *)
Theorem second_call_same_result (fuel : nat) (c : caller_store)
  (compare : Z -> Z -> bool) :
  agree (st_graph c) (snd (stable_marriage fuel c compare))
    (snd (stable_marriage fuel (fst (stable_marriage fuel c compare))
            compare))
  /\ forall v,
       st_color (fst (stable_marriage fuel c compare)) v
       = st_color
           (fst (stable_marriage fuel (fst (stable_marriage fuel c compare))
                   compare)) v.
Proof.
  split.
  - rewrite !stable_marriage_run. apply run_agree; try reflexivity.
    apply labels_again.
  - intros v. exact (labels_again fuel c compare v).
Qed.

(** X13: the loop takes a single turn exactly when no person of the graph
    is labelled black; the call then leaves everybody free and no relation
    engaged or proposed on. *)
Theorem one_turn_iff_no_men (fuel : nat) (c : caller_store)
  (compare : Z -> Z -> bool) :
  ((forall v, v < num_vertices (st_graph c) ->
      is_black (labels_of c v) = false)
   <-> exists s, snd (stable_marriage (S fuel) c compare) = Returned 1 s)
  /\ forall s,
       snd (stable_marriage (S fuel) c compare) = Returned 1 s ->
       (forall v, free_map s v = true)
       /\ (forall e, has_proposed_map s e = false)
       /\ forall a b, In b (adjacent (st_graph c) a) ->
            engaged_to_map s (a, b) = false.
Proof.
  assert (One : forall s,
            snd (stable_marriage (S fuel) c compare) = Returned 1 s ->
            iteration (st_graph c) (st_preference c) compare (labels_of c)
              (initial_state (st_graph c) (st_engaged c)) = Finished s).
  { intros s R. rewrite stable_marriage_run in R. unfold run in R.
    simpl in R.
    destruct (iteration (st_graph c) (st_preference c) compare (labels_of c)
                (initial_state (st_graph c) (st_engaged c))) as [f|t|];
      [congruence| |discriminate].
    destruct (main_loop (st_graph c) (st_preference c) compare (labels_of c)
                fuel t) as [k' t'| |] eqn:M; try discriminate.
    apply main_loop_turns in M. inversion R. lia. }
  split; [split|].
  - intros H.
    exists (mk_state (num_vertices (st_graph c)) (fun _ => true)
              (fun _ => false)
              (engaged_to_map (initial_state (st_graph c) (st_engaged c)))).
    rewrite stable_marriage_run. unfold run. simpl. unfold iteration. simpl.
    rewrite next_free_man_none by (intros v Hv; apply H; lia).
    rewrite Nat.sub_0_r. simpl. now rewrite Nat.leb_refl.
  - intros [s R] v Lv. apply One in R. apply iteration_finished in R.
    destruct R as [Le _].
    destruct (is_black (labels_of c v)) eqn:B; [|reflexivity].
    assert (Hv : 0 <= v < 0 + (num_vertices (st_graph c) - 0)) by lia.
    pose proof (next_free_man_first (labels_of c)
                  (num_vertices (st_graph c) - 0) (fun _ => true) v 0 B
                  eq_refl Hv) as F.
    unfold current_man in Le. simpl men_iterator in Le.
    simpl free_map in Le. pose proof (Nat.le_trans _ _ _ Le F). lia.
  - intros s R. apply One in R. apply iteration_finished in R.
    destruct R as [_ ->]. simpl. repeat split; auto.
    intros a b Hb. now apply initial_engaged_false.
Qed.

(** X14: the checks of the test case pin the engaged flag of every
    relation: the loop of lines 108-129 passes all its checks exactly when
    the relations that join one of the expected couples, in either
    direction, are engaged and every other relation of the graph is not. *)
Theorem test_checks_exact (g : Graph) (couples : list edge)
  (map_engaged : edge -> bool) :
  wf_graph g ->
  (TestChecks.checks_pass g couples map_engaged = true
   <-> forall e, In e (edges g) ->
         map_engaged e = TestChecks.in_couples couples e).
Proof.
  intros _. unfold TestChecks.checks_pass. rewrite forallb_forall.
  split; intros H e He; specialize (H e He);
    rewrite check_relation_spec in *; now apply Bool.eqb_true_iff.
Qed.

Lemma test_checks_exact_witness :
  TestChecks.checks_pass Test.g Test.mutually_engaged
    (st_engaged (fst (stable_marriage 6 Test.store Test.greater_equal)))
  = true
  <-> forall e, In e (edges Test.g) ->
        st_engaged (fst (stable_marriage 6 Test.store Test.greater_equal)) e
        = TestChecks.in_couples Test.mutually_engaged e.
Proof.
  apply (test_checks_exact Test.g Test.mutually_engaged).
  exact (proj1 test_accepted).
Defined.

(** ** Displaced men *)

Section DisplacedMen.

Variable g : Graph.
Variable preference_map : edge -> Z.
Variable compare : Z -> Z -> bool.
Variable color_map : vertex -> default_color_type.

Local Abbreviation turn := (turn g preference_map compare color_map).
Local Abbreviation reachable := (reachable g preference_map compare color_map).
Local Abbreviation current_man := (current_man g color_map).
Local Abbreviation sound := (sound g color_map).
Local Abbreviation abandoned := (abandoned g).

Lemma turn_iterator s s' :
  turn s s' ->
  men_iterator s' = current_man s /\ men_iterator s <= current_man s.
Proof.
  intros T. destruct (current_man_spec g color_map s) as [Lo _].
  destruct T; simpl; subst; auto.
Qed.

Lemma in_order_initial engaged0 : in_order (initial_state g engaged0).
Proof. intros m w H. simpl in H. discriminate. Qed.

Lemma in_order_turn s s' : turn s s' -> in_order s -> in_order s'.
Proof.
  intros T O. destruct (turn_iterator _ _ T) as [Ei Lo].
  destruct (turn_proposes g preference_map compare color_map _ _ T)
    as [E | [m0 [w0 [Em [L [C E]]]]]]; intros m w P; rewrite E in P;
    rewrite Ei.
  - specialize (O m w P). lia.
  - unfold put in P. destruct (edge_eqb (m0, w0) (m, w)) eqn:Eq.
    + apply edge_eqb_eq in Eq. inversion Eq; subst. lia.
    + specialize (O m w P). lia.
Qed.

Lemma in_order_reachable s s' : reachable s s' -> in_order s -> in_order s'.
Proof. intros R H. induction R; [assumption|]. eapply in_order_turn; eauto. Qed.

Hypothesis labels_proper : proper g color_map.

(** A person a turn makes free again is a man displaced by a man of higher
    index: the iterator is past him. *)
Lemma displaced_abandoned s s' v :
  turn s s' -> sound s -> courted g s -> wooed g color_map s ->
  in_order s ->
  free_map s v = false -> free_map s' v = true ->
  is_black (color_map v) = true /\ abandoned s' v.
Proof.
  intros T So Co Wo Or F F'.
  destruct T as [L C | m0 w0 Em L C Fw | m0 w0 p Em L C Fw Eo Cmp Ex
                 | m0 w0 p Em L C Fw Eo Cmp]; simpl in F';
    try (unfold put_v in F'; vertex_cases; congruence); try congruence.
  destruct (turn_facts g preference_map compare color_map labels_proper
              _ _ _ Em L C) as [B [F0 [Hw [Hm [Bw0 _]]]]].
  destruct (engaged_relation_found _ _ _ _ Eo) as [_ [Hp Ep]].
  simpl in Hp.
  pose proof (black_partner g color_map labels_proper _ _ Bw0 Hp) as Bp.
  assert (p <> m0) by (intros ->; lia).
  assert (m0 <> w0) by congruence. assert (p <> w0) by congruence.
  destruct (sound_symmetric _ _ _ So _ _ Hp Ep) as [Hwp Epw].
  assert (v = p).
  { unfold put_v in F'. vertex_cases; congruence. }
  subst v. split; [assumption|]. unfold abandoned. simpl.
  split; [|split].
  - destruct (Co _ _ Hwp Epw) as [P | P].
    + pose proof (Or _ _ P).
      destruct (current_man_spec g color_map s) as [Lo _]. lia.
    + destruct (Wo _ _ P) as [Bw _]. congruence.
  - apply put_v_same.
  - intros w Hin. unfold put. edge_cases; edge_facts; auto; try congruence.
    destruct (engaged_to_map s (p, w)) eqn:E; [|reflexivity].
    pose proof (sound_monogamous _ _ _ So _ _ _ Hin Hwp E Epw). subst w.
    congruence.
Qed.

Lemma abandoned_turn s s' v :
  turn s s' -> sound s ->
  is_black (color_map v) = true -> abandoned s v -> abandoned s' v.
Proof.
  intros T So Bv [Lt [F Un]].
  destruct (turn_iterator _ _ T) as [Ei Lo].
  unfold abandoned. rewrite Ei. split; [lia|].
  destruct T as [L C | m0 w0 Em L C Fw | m0 w0 p Em L C Fw Eo Cmp Ex
                 | m0 w0 p Em L C Fw Eo Cmp]; simpl in *.
  - split; [|assumption]. unfold put_v. vertex_cases; auto. lia.
  - destruct (turn_facts g preference_map compare color_map labels_proper
                _ _ _ Em L C) as [B [F0 [Hw [Hm [Bw0 _]]]]].
    assert (m0 <> v) by lia. assert (w0 <> v) by congruence.
    split.
    + unfold put_v. vertex_cases; auto; congruence.
    + intros w Hin. unfold put. edge_cases; edge_facts; auto; congruence.
  - destruct (turn_facts g preference_map compare color_map labels_proper
                _ _ _ Em L C) as [B [F0 [Hw [Hm [Bw0 _]]]]].
    assert (m0 <> v) by lia. assert (w0 <> v) by congruence.
    split.
    + unfold put_v. vertex_cases; auto; congruence.
    + intros w Hin. unfold put. edge_cases; edge_facts; auto; congruence.
  - split; assumption.
Qed.

Lemma abandoned_reachable s s' v :
  reachable s s' -> sound s ->
  is_black (color_map v) = true -> abandoned s v -> abandoned s' v.
Proof.
  intros R So Bv A. induction R as [|t t' R IH T]; [assumption|].
  eapply abandoned_turn; eauto.
  eapply sound_reachable; eauto.
Qed.

End DisplacedMen.

Lemma after_turns_reachable g preference_map compare color_map j :
  forall s s',
  after_turns g preference_map compare color_map j s = Some s' ->
  reachable g preference_map compare color_map s s'.
Proof.
  induction j as [|j IH]; intros s s' H; simpl in H.
  - inversion H. constructor.
  - destruct (iteration g preference_map compare color_map s) as [f|t|]
      eqn:It; try discriminate.
    eapply reachable_trans; [|apply IH; exact H].
    eapply reachable_turn; [constructor|]. now apply iteration_turn.
Qed.

(** The loop entered at a state it goes through returns what the whole run
    returns. *)
Lemma main_loop_from g preference_map compare color_map j :
  forall s s' fuel k t,
  after_turns g preference_map compare color_map j s = Some s' ->
  main_loop g preference_map compare color_map fuel s = Returned k t ->
  main_loop g preference_map compare color_map (fuel - j) s'
  = Returned (k - j) t.
Proof.
  induction j as [|j IH]; intros s s' fuel k t H M; simpl in H.
  - inversion H; subst. now rewrite !Nat.sub_0_r.
  - destruct fuel as [|fuel]; simpl in M; [discriminate|].
    destruct (iteration g preference_map compare color_map s) as [f|u|]
      eqn:It; try discriminate.
    destruct (main_loop g preference_map compare color_map fuel u)
      as [k' t'| |] eqn:M'; try discriminate.
    inversion M; subst. simpl. eapply IH; eauto.
Qed.

(** X15: men take their turns in index order, and a displaced man never
    gets another turn.  On a bipartite graph, whoever has proposed is at the
    iterator or behind it; so when a turn of the call makes a person free
    again (a man displaced by another), the iterator is already past him,
    and the call returns with him still marked free and without an engaged
    relation. *)
Theorem displaced_man_never_returns (c : caller_store)
  (compare : Z -> Z -> bool) (fuel k j : nat) (s s' t : state) (v : vertex) :
  wf_graph (st_graph c) ->
  bipartite (st_graph c) ->
  snd (stable_marriage fuel c compare) = Returned k t ->
  after_turns (st_graph c) (st_preference c) compare (labels_of c) j
    (initial_state (st_graph c) (st_engaged c)) = Some s ->
  iteration (st_graph c) (st_preference c) compare (labels_of c) s
  = Continue s' ->
  free_map s v = false ->
  free_map s' v = true ->
  (forall m w, has_proposed_map s (m, w) = true -> m <= men_iterator s)
  /\ is_black (labels_of c v) = true
  /\ v < men_iterator s'
  /\ free_map t v = true
  /\ forall w, In w (adjacent (st_graph c) v) ->
       engaged_to_map t (v, w) = false.
Proof.
  intros WF Bip R A It F F'.
  pose proof (proj1 (bipartite_accepted _ (st_color c) WF) Bip) as Acc.
  pose proof (labels_proper_of_accepted c WF Acc) as P.
  pose proof (after_turns_reachable _ _ _ _ _ _ _ A) as Rs.
  pose proof (sound_reachable (st_graph c) (st_preference c) compare
                (labels_of c) P _ s Rs (sound_initial _ _ _)) as So.
  pose proof (wooed_reachable _ _ _ _ _ _ Rs
                (wooed_initial _ (labels_of c) _)) as Wo.
  pose proof (courted_reachable _ _ _ _ _ _ Rs (courted_initial _ _)) as Co.
  pose proof (in_order_reachable _ _ _ _ _ _ Rs (in_order_initial _ _)) as Or.
  pose proof (iteration_turn _ _ _ _ _ _ It) as T.
  destruct (displaced_abandoned _ _ _ _ P _ _ _ T So Co Wo Or F F')
    as [Bv Ab].
  split; [exact Or|]. split; [exact Bv|]. split; [apply Ab|].
  assert (A' : after_turns (st_graph c) (st_preference c) compare
                 (labels_of c) (S j)
                 (initial_state (st_graph c) (st_engaged c)) = Some s').
  { clear - A It. revert A.
    generalize (initial_state (st_graph c) (st_engaged c)).
    induction j as [|j IH]; intros s0 A; simpl in A.
    - inversion A; subst. simpl. now rewrite It.
    - simpl.
      destruct (iteration (st_graph c) (st_preference c) compare
                  (labels_of c) s0) as [f|u|]; try discriminate.
      apply IH in A. exact A. }
  rewrite stable_marriage_run in R. unfold run in R.
  pose proof (main_loop_from _ _ _ _ _ _ _ _ _ _ A' R) as M.
  destruct (main_loop_reaches _ _ _ _ _ _ _ _ M) as [s'' [Rs'' Fin]].
  apply iteration_finished in Fin. destruct Fin as [_ Et].
  pose proof (sound_turn (st_graph c) (st_preference c) compare
                (labels_of c) P _ _ T So) as So'.
  destruct (abandoned_reachable _ _ _ _ P _ _ _ Rs'' So' Bv Ab)
    as [_ [Ft Un]].
  subst t. simpl. auto.
Qed.

Lemma displaced_man_never_returns_witness :
  (forall m w,
     has_proposed_map
       (mk_state 2 (put_v (put_v (fun _ => true) 1 false) 2 false)
          (put (fun _ => false) (2, 1) true)
          (put (put (engaged_to_map
                       (initial_state Displaced.g (fun _ => false)))
                  (2, 1) true) (1, 2) true)) (m, w) = true ->
     m <= 2)
  /\ is_black (labels_of Displaced.store 2) = true
  /\ 2 < 3
  /\ free_map
       (match run 3 Displaced.store Policy.greater with
        | Returned _ t => t
        | _ => initial_state Displaced.g (fun _ => false)
        end) 2 = true
  /\ forall w, In w (adjacent Displaced.g 2) ->
       engaged_to_map
         (match run 3 Displaced.store Policy.greater with
          | Returned _ t => t
          | _ => initial_state Displaced.g (fun _ => false)
          end) (2, w) = false.
Proof.
  apply (displaced_man_never_returns Displaced.store Policy.greater 3 3 1
           (mk_state 2 (put_v (put_v (fun _ => true) 1 false) 2 false)
              (put (fun _ => false) (2, 1) true)
              (put (put (engaged_to_map
                           (initial_state Displaced.g (fun _ => false)))
                      (2, 1) true) (1, 2) true))
           (mk_state 3
              (put_v
                 (put_v
                    (put_v (put_v (put_v (fun _ => true) 1 false) 2 false)
                       1 false) 3 false) 2 true)
              (put (put (fun _ => false) (2, 1) true) (3, 1) true)
              (put
                 (put
                    (put
                       (put
                          (put (put (engaged_to_map
                                       (initial_state Displaced.g
                                          (fun _ => false)))
                                  (2, 1) true) (1, 2) true)
                          (3, 1) true) (1, 3) true) (1, 2) false)
                 (2, 1) false))).
  - apply wf_graphb_sound. vm_compute. reflexivity.
  - exists (fun v => v <? 2). intros u v H.
    do 4 (destruct u as [|u]; [simpl in H; intuition (subst; reflexivity)|]).
    destruct u; destruct H.
  - vm_compute. reflexivity.
  - vm_compute. reflexivity.
  - vm_compute. reflexivity.
  - reflexivity.
  - reflexivity.
Defined.
